(** * Optiglot TypeScript harness: rollout executor, batch evaluator and
      optimization session

    A shallow embedding of [models.ts] (class [Module]), [teleprompt.ts]
    (class [Teleprompt]), [server.ts] ([createServer]), [dataset.ts]
    ([Dataset.getInputs]) and the tracing shim of [ai-sdk/predict.ts],
    followed by the properties the specification states about them. *)

From Stdlib Require Import QArith Qround.
From stdpp Require Import gmap strings list fin_maps pretty.

Open Scope string_scope.
Open Scope nat_scope.
Open Scope list_scope.

(** ** JavaScript objects

    Objects the harness mutates live in a store indexed by locations, so
    that two references to one predictor observe each other's writes. *)

Definition loc := positive.

Inductive value :=
| VString (s : string)
| VObject (l : loc).

Global Instance value_eq_dec : EqDecision value.
Proof. solve_decision. Defined.

Abbreviation Heap := (gmap loc (gmap string value)).

Definition get_prop (h : Heap) (l : loc) (k : string) : option value :=
  h !! l ≫= λ o, o !! k.

(** [o.k = v] on an ordinary (extensible, unfrozen) object. *)
Definition set_prop (h : Heap) (l : loc) (k : string) (v : value) : Heap :=
  alter (<[k := v]>) l h.

(** ToBoolean on strings: only the empty string is falsy. *)
Definition truthy (s : string) : bool := negb (String.eqb s "").

(** ** Values the harness copies without looking inside

    A property of a thrown value, [e.name] say, may hold anything.  The
    harness applies [||] to it (ToBoolean) and copies it; so a value that is
    neither a string nor [null] or [undefined] is known here by its
    truthiness, and by an identity that tells it from other values. *)
Inductive js :=
| JUndefined
| JNull
| JString (s : string)
| JOther (truthy : bool) (id : positive).

Global Instance js_eq_dec : EqDecision js.
Proof. solve_decision. Defined.

(** ToBoolean. *)
Definition js_truthy (v : js) : bool :=
  match v with
  | JUndefined | JNull => false
  | JString s => truthy s
  | JOther b _ => b
  end.

(** A value that is set: neither [null] nor [undefined]. *)
Definition is_set (v : js) : Prop := v ≠ JNull ∧ v ≠ JUndefined.

(** [v || d], where [d] is a string. *)
Definition or_else (v : js) (d : string) : js :=
  if js_truthy v then v else JString d.

(** [v || null]. *)
Definition or_null (v : js) : js :=
  if js_truthy v then v else JNull.

(** What a function may return: [undefined], [null] or a value. *)
Inductive nullable (A : Type) :=
| Undefined
| Null
| Value (a : A).
Arguments Undefined {A}.
Arguments Null {A}.
Arguments Value {A} a.

Global Instance nullable_eq_dec {A} `{EqDecision A} :
  EqDecision (nullable A).
Proof. solve_decision. Defined.

(** ** Thrown values

    [catch (e: any)]: a JavaScript program may throw (or reject a promise
    with) any value.  [ThrownNullish] is [null] or [undefined].
    [ThrownValue] is a value a [catch] block can describe: it is seen
    through [e.name], [e.message] and [e.stack], whatever they hold,
    through [String(e)] (which is evaluated only when [e.message] is falsy),
    and through the status the server reads from it
    ([e.statusCode || e.status], when that is a number).
    [ThrownUnreadable failure] is a value on which the reads of a [catch]
    block themselves throw [failure]: an object without a truthy [message]
    whose conversion to a string throws, such as [Object.create(null)], or
    one with a getter that throws. *)

Inductive thrown :=
| ThrownNullish
| ThrownValue (name message stack : js) (str : string)
    (statusCode : option nat)
| ThrownUnreadable (failure : thrown) (statusCode : option nat).

(** A thrown value the [catch] blocks of the harness can describe. *)
Definition describable (e : thrown) : bool :=
  match e with
  | ThrownValue _ _ _ _ _ => true
  | ThrownNullish | ThrownUnreadable _ _ => false
  end.

(** [new Error(msg)]; the engine-made stack text is not modelled. *)
Definition Error (msg : string) : thrown :=
  ThrownValue (JString "Error") (JString msg) JUndefined ("Error: " +:+ msg)
    None.

(** The TypeError the engine raises on a property read or write that the
    receiver does not support. *)
Definition TypeError (msg : string) : thrown :=
  ThrownValue (JString "TypeError") (JString msg) JUndefined
    ("TypeError: " +:+ msg) None.

(** How an awaited call settles. *)
Inductive completion (A : Type) :=
| Returned (a : A)
| Threw (e : thrown).
Arguments Returned {A} a.
Arguments Threw {A} e.

Definition returned {A} (c : completion A) : bool :=
  match c with Returned _ => true | Threw _ => false end.

(** ** [models.ts]: data model *)

Record Message := mkMessage { role : string; content : string }.

Global Instance Message_eq_dec : EqDecision Message.
Proof. solve_decision. Defined.

Record TraceEntry := mkTraceEntry {
  predictor : string;
  input : list Message;
  output : string;
  te_errorType : js;
  te_errorMessage : js;
  te_errorTraceback : js
}.

Global Instance TraceEntry_eq_dec : EqDecision TraceEntry.
Proof. solve_decision. Defined.

(** ** [ai-sdk/predict.ts]: [Predict.generateText]

    Host logic reaches a language model only through a predictor.  [Host]
    is forward logic seen from the harness: it returns, throws, or calls
    [this[name].generateText(options)] and goes on from the way that call
    settles (so a [try]/[catch] in host logic is a continuation that does
    not rethrow).  [streamText] is not modelled. *)

Record GenerateTextOptions := mkOptions {
  messages : option (list Message);
  prompt : option string
}.

Inductive Host (A : Type) :=
| Return (a : A)
| Throw (e : thrown)
| CallPredictor (name : string) (options : GenerateTextOptions)
    (k : completion string → Host A).
Arguments Return {A} a.
Arguments Throw {A} e.
Arguments CallPredictor {A} name options k.

(** A string-valued property, read where a string is expected. *)
Definition string_prop (h : Heap) (l : loc) (k : string) : string :=
  match get_prop h l k with
  | Some (VString s) => s
  | Some (VObject _) | None => ""
  end.

Definition prepareMessages (instructions : string)
    (options : GenerateTextOptions) : completion (list Message) :=
  match messages options with
  | Some ms =>
      if existsb (λ msg, String.eqb (role msg) "system") ms
      then Threw (Error ("System messages are not allowed in Predict. " +:+
                         "Provide them via instructions instead."))
      else Returned (mkMessage "system" instructions :: ms)
  | None =>
      match prompt options with
      | Some pr =>
          if truthy pr
          then Returned [mkMessage "system" instructions; mkMessage "user" pr]
          else Threw (Error "Either prompt or messages must be provided.")
      | None => Threw (Error "Either prompt or messages must be provided.")
      end
  end.

(** ** Promises *)

Inductive promise (A : Type) :=
| Pending
| Fulfilled (a : A)
| Rejected (e : thrown).
Arguments Pending {A}.
Arguments Fulfilled {A} a.
Arguments Rejected {A} e.

(** The [resolve] function of [optimizationPromise]. *)
Inductive resolver := ResolveOptimization.

Section Harness.

(** [any]: the values of examples and of forward's result; [number]: the
    scores, with the literal [0] and the text a template literal gives. *)
Context {any number : Type}.
Variable zero : number.
Variable show_number : number → string.

(** [Example = Record<string, any>]. *)
Local Abbreviation Example := (gmap string any).

(** [Prediction<T>]: [output] is what forward logic returned, or [null];
    the three error fields are [JNull] or what the [catch] block of [run]
    has put there. *)
Record Prediction := mkPrediction {
  p_output : nullable any;
  errorType : js;
  errorMessage : js;
  errorTraceback : js
}.

Record ScoreWFeedback := mkScore {
  score : number;
  feedback : option string
}.

Record Trace := mkTrace {
  example_ind : nat;
  example : Example;
  t_prediction : Prediction;
  t_trace : list TraceEntry;
  t_score : ScoreWFeedback
}.

(** A slot of [new Array(n)] is a hole ([None]) until it is written. *)
Record EvaluationBatch := mkBatch {
  outputs : list (option Prediction);
  scores : list (option number);
  trajectories : list (option Trace)
}.

Record RunResult := mkRunResult {
  prediction : Prediction;
  trace : list TraceEntry
}.

(** What [metric] hands back: a bare number, a [{score, feedback?}] record,
    [null]/[undefined], or an exception (a rejected promise alike). *)
Inductive MetricVal :=
| MNumber (n : number)
| MScored (s : number) (fb : option string)
| MNullish
| MThrows (e : thrown).

Definition MetricFunction : Type :=
  Example → Prediction → option (list TraceEntry) → option string →
  option (list TraceEntry) → MetricVal.

(** Forward logic is the host's closure.  It reads the predictors through
    the store, appends to the trace bound to its rollout by
    [requestContext.run], and returns or throws. *)
Definition Forward : Type :=
  Heap → Example → list TraceEntry →
  list TraceEntry * completion (nullable any).

(** ** [models.ts]: class [Module]

    [_predictors] is the record handed to the constructor, [fields] the
    members [this[name] = predictor] the constructor attaches, [_forward]
    the closure of [setForward]. *)
Record Module := mkModule {
  _predictors : loc;
  fields : gmap string loc;
  _forward : option Forward
}.

Inductive member :=
| MUndefined
| MFunction
| MObject (l : loc).

Global Instance member_eq_dec : EqDecision member.
Proof. solve_decision. Defined.

Definition methods : list string :=
  ["constructor"; "clone"; "save"; "load"; "setForward"; "forward"; "run";
   "evaluate"].

(** [this[name]] for the members this class declares or attaches.  The
    constructor assigns [_predictors] first, the predictors next and
    [_forward] last, so a later assignment shadows an earlier one of the same
    name; the methods sit on the prototype, behind the own properties.
    Members inherited from [Object.prototype] are not part of this model. *)
Definition this_get (m : Module) (name : string) : member :=
  if decide (name = "_forward") then
    match _forward m with Some _ => MFunction | None => MUndefined end
  else match fields m !! name with
  | Some l => MObject l
  | None =>
      if decide (name = "_predictors") then MObject (_predictors m)
      else if decide (name ∈ methods) then MFunction
      else MUndefined
  end.

(** [this._predictors], read as a member. *)
Definition predictors_of (m : Module) : loc :=
  match fields m !! "_predictors" with
  | Some l => l
  | None => _predictors m
  end.

(** [evaluate], step 1:
    [if (this[name] && typeof this[name] !== "function")
       this[name].instructions = prompt]. *)
Definition update_prompt (m : Module) (h : Heap) (entry : string * string)
  : Heap :=
  match this_get m entry.1 with
  | MObject l => set_prop h l "instructions" (VString entry.2)
  | MFunction | MUndefined => h
  end.

(** [candidate] lists the entries in [Object.entries] order. *)
Definition update_candidate_prompts (m : Module) (h : Heap)
    (candidate : list (string * string)) : Heap :=
  foldl (update_prompt m) h candidate.

(** [compile], the [then] callback (and [load]):
    [if (student._predictors[name])
       student._predictors[name].instructions = prompt].
    The state is the store so far and the exception, once one is thrown:
    this is strict-mode code, where assigning a property on a non-empty
    string throws, and the loop stops there. *)
Definition update_student_prompt (m : Module) (st : Heap * option thrown)
    (entry : string * string) : Heap * option thrown :=
  match st.2 with
  | Some _ => st
  | None =>
      match get_prop st.1 (predictors_of m) entry.1 with
      | Some (VObject l) =>
          (set_prop st.1 l "instructions" (VString entry.2), None)
      | Some (VString s) =>
          if truthy s
          then (st.1, Some (TypeError
                  "Cannot create property 'instructions' on string"))
          else st
      | None => st
      end
  end.

Definition update_student (m : Module) (h : Heap)
    (bestCandidate : list (string * string)) : Heap * option thrown :=
  foldl (update_student_prompt m) (h, None) bestCandidate.

(** What the specification asks of an application: the predictor at [l]
    ends with the text of the last entry that names it, and every object no
    entry names keeps its fields. *)
Definition last_prompt (m : Module) (candidate : list (string * string))
    (l : loc) : option string :=
  snd <$> last (filter (λ entry, this_get m entry.1 = MObject l) candidate).

(** The record of predictors holds predictor objects only, and not
    itself. *)
Definition record_of_predictors (m : Module) (h : Heap) : Prop :=
  ∀ k v, get_prop h (predictors_of m) k = Some v →
         ∃ l, v = VObject l ∧ l ≠ predictors_of m.

(** [async forward(inputs)]. *)
Definition forward (m : Module) (h : Heap) (inputs : Example)
    (tr : list TraceEntry) : list TraceEntry * completion (nullable any) :=
  match _forward m with
  | None => (tr, Threw (Error "Forward function is not set"))
  | Some f => f h inputs tr
  end.

(** [this.forward!(inputs)]: a predictor attached under the name [forward]
    shadows the method, and calling an object throws. *)
Definition call_forward (m : Module) (h : Heap) (inputs : Example)
    (tr : list TraceEntry) : list TraceEntry * completion (nullable any) :=
  match this_get m "forward" with
  | MFunction => forward m h inputs tr
  | MObject _ | MUndefined =>
      (tr, Threw (TypeError "this.forward is not a function"))
  end.

(** [async run(inputs)].  The [catch] block reads [e.name], [e.message] and
    [e.stack], and [String(e)] when [e.message] is falsy; on [null] or
    [undefined] the first read throws a TypeError, and on a value that
    cannot be read or converted the read or the conversion throws: either
    way the exception leaves [run], because nothing encloses the [catch]
    block. *)
Definition run (m : Module) (h : Heap) (inputs : Example)
  : completion RunResult :=
  let '(tr, c) := call_forward m h inputs [] in
  match c with
  | Returned out =>
      Returned (mkRunResult (mkPrediction out JNull JNull JNull) tr)
  | Threw ThrownNullish =>
      Threw (TypeError "Cannot read properties of undefined (reading 'name')")
  | Threw (ThrownValue name message stack str _) =>
      Returned (mkRunResult
        (mkPrediction Null (or_else name "Error") (or_else message str)
           (or_null stack)) tr)
  | Threw (ThrownUnreadable failure _) => Threw failure
  end.

(** [this.run(inputs)], with the same caveat as [call_forward]. *)
Definition call_run (m : Module) (h : Heap) (inputs : Example)
  : completion RunResult :=
  match this_get m "run" with
  | MFunction => run m h inputs
  | MObject _ | MUndefined => Threw (TypeError "this.run is not a function")
  end.

(** ** [dataset.ts]

    [inputs] holds the entries of [this.inputs] in [Object.entries] order. *)
Record Dataset := mkDataset { inputs : list (string * string) }.

Definition getInputs (d : Dataset) (ex : Example) : Example :=
  foldl (λ res (e : string * string),
           match ex !! e.1 with
           | Some v => <[e.2 := v]> res
           | None => res
           end) ∅ (inputs d).

(** ** Scoring

    The statements between [await metric(...)] and the end of the [try]
    block; they throw when [metricVal] is [null] or [undefined]. *)
Definition score_text (n : number) : string :=
  "This trajectory got a score of " +:+ show_number n +:+ ".".

Definition normalize (v : MetricVal) : completion ScoreWFeedback :=
  match v with
  | MNumber n => Returned (mkScore n (Some (score_text n)))
  | MScored s fb => Returned (mkScore s (Some (default (score_text s) fb)))
  | MNullish =>
      Threw (TypeError "Cannot read properties of undefined (reading 'score')")
  | MThrows e => Threw e
  end.

(** The whole [try { ... } catch (e) { ... }] of [evaluate]. *)
Definition metric_result (v : MetricVal) : ScoreWFeedback :=
  match normalize v with
  | Returned r => r
  | Threw _ => mkScore zero (Some "Metric evaluation failed.")
  end.

(** ** [Module.evaluate]: the worker pool

    Under Node's cooperative scheduling a worker runs without interruption
    from one [await] to the next.  A worker is therefore described by the
    [await] it is suspended at, together with its live locals.  (A metric
    that throws before it returns a promise is caught without suspending;
    the model suspends there too and lets the event loop pick the same
    worker again, which is one of its interleavings.) *)
Inductive worker :=
| AwaitRun (index : nat) (ex : Example)
| AwaitMetric (index : nat) (ex : Example) (runResult : RunResult)
| Finished
| Failed (e : thrown).

(** Observations of the pool; the pool never reads them. *)
Inductive event :=
| Claimed (w index : nat)
| Processed (w index : nat).

Record Pool := mkPool {
  currentIndex : nat;
  pool_outputs : list (option Prediction);
  pool_scores : list (option number);
  pool_trajectories : list (option Trace);
  workers : list worker;
  rejection : option thrown;
  history : list event
}.

(** [arr[i] = v]: JavaScript extends the array when [i] is past its end. *)
Definition array_set {A} (arr : list (option A)) (i : nat) (v : A)
  : list (option A) :=
  if decide (i < length arr) then <[i := Some v]> arr
  else arr ++ replicate (i - length arr) None ++ [Some v].

Definition set_worker (w : nat) (st : worker) (p : Pool) : Pool :=
  mkPool (currentIndex p) (pool_outputs p) (pool_scores p)
    (pool_trajectories p) (<[w := st]> (workers p)) (rejection p) (history p).

(** A worker's promise rejects; [Promise.all] keeps the first rejection. *)
Definition fail_worker (w : nat) (e : thrown) (p : Pool) : Pool :=
  mkPool (currentIndex p) (pool_outputs p) (pool_scores p)
    (pool_trajectories p) (<[w := Failed e]> (workers p))
    (match rejection p with Some e0 => Some e0 | None => Some e end)
    (history p).

Section Evaluate.

Variable m : Module.
(** The store once the candidate has been applied. *)
Variable h : Heap.
Variable batch : list Example.
Variable capture_traces : bool.
Variable metric : MetricFunction.
(** [getInputs]: in this package [Dataset.getInputs], which never throws. *)
Variable mapper : option (Example → Example).

Definition inputs_of (ex : Example) : Example :=
  match mapper with Some f => f ex | None => ex end.

(** From the loop test to [await this.run(inputs)]:
    [while (currentIndex < batch.length) {
       const index = currentIndex++;
       if (index >= batch.length) break;
       const example = batch[index]!; ...]. *)
Definition loop_head (w : nat) (p : Pool) : Pool * worker :=
  if decide (currentIndex p < length batch) then
    let index := currentIndex p in
    let p' := mkPool (S index) (pool_outputs p) (pool_scores p)
                (pool_trajectories p) (workers p) (rejection p) (history p) in
    match batch !! index with
    | None => (p', Finished)
    | Some ex =>
        (mkPool (S index) (pool_outputs p) (pool_scores p)
           (pool_trajectories p) (workers p) (rejection p)
           (history p ++ [Claimed w index]),
         AwaitRun index ex)
    end
  else (p, Finished).

(** [outputs[index] = ...; scores[index] = ...;
     if (capture_traces) trajectories[index] = {...}]. *)
Definition record_result (w index : nat) (ex : Example) (r : RunResult)
    (s : ScoreWFeedback) (p : Pool) : Pool :=
  mkPool (currentIndex p)
    (array_set (pool_outputs p) index (prediction r))
    (array_set (pool_scores p) index (score s))
    (if capture_traces
     then array_set (pool_trajectories p) index
            (mkTrace index ex (prediction r) (trace r)
               (mkScore (score s) (feedback s)))
     else pool_trajectories p)
    (workers p) (rejection p) (history p ++ [Processed w index]).

(** The event loop resumes worker [w], which runs to its next [await]. *)
Definition resume (w : nat) (p : Pool) : Pool :=
  match workers p !! w with
  | Some (AwaitRun index ex) =>
      match call_run m h (inputs_of ex) with
      | Returned r => set_worker w (AwaitMetric index ex r) p
      | Threw e => fail_worker w e p
      end
  | Some (AwaitMetric index ex r) =>
      let s := metric_result
                 (metric ex (prediction r) (Some (trace r)) None None) in
      let '(p', st) := loop_head w (record_result w index ex r s p) in
      set_worker w st p'
  | Some Finished | Some (Failed _) | None => p
  end.

(** [Array.from({ length: numWorkers }).map(async () => {...})]: each
    worker starts at once and runs to its first [await]. *)
Definition start_worker (p : Pool) : Pool :=
  let '(p', st) := loop_head (length (workers p)) p in
  mkPool (currentIndex p') (pool_outputs p') (pool_scores p')
    (pool_trajectories p') (workers p' ++ [st]) (rejection p') (history p').

Definition initial_pool : Pool :=
  mkPool 0 (replicate (length batch) None) (replicate (length batch) None)
    (replicate (length batch) None) [] None [].

Definition start_workers (numWorkers : nat) : Pool :=
  Nat.iter numWorkers start_worker initial_pool.

Definition suspended (st : worker) : bool :=
  match st with
  | AwaitRun _ _ | AwaitMetric _ _ _ => true
  | Finished | Failed _ => false
  end.

(** The workers the event loop may resume next. *)
Definition pending (ws : list worker) : list nat :=
  filter (λ w, from_option suspended false (ws !! w)) (seq 0 (length ws)).

(** [sched t] decides which suspended worker is resumed at step [t]: every
    function is an interleaving, and every interleaving is some function. *)
Fixpoint run_pool (sched : nat → nat) (fuel t : nat) (p : Pool) : Pool :=
  match fuel with
  | 0 => p
  | S fuel' =>
      match pending (workers p) with
      | [] => p
      | w0 :: ws =>
          let w := nth (sched t mod S (length ws)) (w0 :: ws) w0 in
          run_pool sched fuel' (S t) (resume w p)
      end
  end.

(** Each claimed index takes two resumptions. *)
Definition enough_fuel : nat := 2 * length batch.

Definition final_pool (numWorkers : nat) (sched : nat → nat) : Pool :=
  run_pool sched enough_fuel 0 (start_workers numWorkers).

(** [await Promise.all(workers); return {...}]. *)
Definition settle (p : Pool) : completion EvaluationBatch :=
  match rejection p with
  | Some e => Threw e
  | None =>
      Returned (mkBatch (pool_outputs p) (pool_scores p)
        (if capture_traces then pool_trajectories p else []))
  end.

(** *** What the observations and the arrays are checked against *)

Definition claim_of (e : event) : option (nat * nat) :=
  match e with Claimed w i => Some (w, i) | Processed _ _ => None end.

Definition processed_of (e : event) : option (nat * nat) :=
  match e with Processed w i => Some (w, i) | Claimed _ _ => None end.

(** The (worker, index) pairs claimed, and those written, in order. *)
Definition claims (p : Pool) : list (nat * nat) := omap claim_of (history p).
Definition processed (p : Pool) : list (nat * nat) :=
  omap processed_of (history p).

(** [metric(example, runResult.prediction, runResult.trace)], scored. *)
Definition judged (ex : Example) (r : RunResult) : ScoreWFeedback :=
  metric_result (metric ex (prediction r) (Some (trace r)) None None).

(** The three slots of index [i] once it is written. *)
Definition written (p : Pool) (i : nat) (ex : Example) (r : RunResult)
  : Prop :=
  pool_outputs p !! i = Some (Some (prediction r)) ∧
  pool_scores p !! i = Some (Some (score (judged ex r))) ∧
  pool_trajectories p !! i =
    Some (if capture_traces
          then Some (mkTrace i ex (prediction r) (trace r)
                       (mkScore (score (judged ex r))
                          (feedback (judged ex r))))
          else None).

Definition hole (p : Pool) (i : nat) : Prop :=
  pool_outputs p !! i = Some None ∧
  pool_scores p !! i = Some None ∧
  pool_trajectories p !! i = Some None.

(** *** The report, index by index

    What the specification asks of the report: slot [i] holds the rollout
    of [batch[i]] and its score, whatever the workers and their
    interleaving.  [sequential_report] maps the batch in order, without a
    pool. *)
Definition sequential_output (ex : Example) : option Prediction :=
  match call_run m h (inputs_of ex) with
  | Returned r => Some (prediction r)
  | Threw _ => None
  end.

Definition sequential_score (ex : Example) : option number :=
  match call_run m h (inputs_of ex) with
  | Returned r => Some (score (judged ex r))
  | Threw _ => None
  end.

Definition sequential_trajectory (i : nat) (ex : Example) : option Trace :=
  match call_run m h (inputs_of ex) with
  | Returned r =>
      Some (mkTrace i ex (prediction r) (trace r)
              (mkScore (score (judged ex r)) (feedback (judged ex r))))
  | Threw _ => None
  end.

Definition sequential_report : EvaluationBatch :=
  mkBatch (sequential_output <$> batch) (sequential_score <$> batch)
    (if capture_traces then imap sequential_trajectory batch else []).

(** No rollout of the batch rejects: [run] is not shadowed and forward
    logic never rejects with a value the [catch] block of [run] cannot
    describe ([null], [undefined], or a value whose reads throw). *)
Definition rollouts_return : Prop :=
  Forall (λ ex, returned (call_run m h (inputs_of ex)) = true) batch.

(** The pool invariant, over a view [v] of the workers: the cursor counts
    the claims, every claimed index is held by the worker that claimed it,
    or written by it, or lost with it when its rollout rejected, and the
    written slots hold what the rollout of their example gives. *)
Record pool_inv (v : nat → option worker) (p : Pool) : Prop := {
  inv_cursor : currentIndex p ≤ length batch;
  inv_lengths :
    length (pool_outputs p) = length batch ∧
    length (pool_scores p) = length batch ∧
    length (pool_trajectories p) = length batch;
  inv_claims : (claims p).*2 = seq 0 (currentIndex p);
  inv_run : ∀ w i ex, v w = Some (AwaitRun i ex) →
    batch !! i = Some ex ∧ (w, i) ∈ claims p ∧ (w, i) ∉ processed p;
  inv_metric : ∀ w i ex r, v w = Some (AwaitMetric i ex r) →
    batch !! i = Some ex ∧ call_run m h (inputs_of ex) = Returned r ∧
    (w, i) ∈ claims p ∧ (w, i) ∉ processed p;
  inv_claimed : ∀ w i, (w, i) ∈ claims p →
    (w, i) ∈ processed p ∨ (∃ ex, v w = Some (AwaitRun i ex)) ∨
    (∃ ex r, v w = Some (AwaitMetric i ex r)) ∨ (∃ e, v w = Some (Failed e));
  inv_processed : NoDup (processed p) ∧ processed p ⊆ claims p;
  inv_written : ∀ i, i ∈ (processed p).*2 →
    ∃ ex r, batch !! i = Some ex ∧
            call_run m h (inputs_of ex) = Returned r ∧ written p i ex r;
  inv_holes : ∀ i, i ∉ (processed p).*2 → i < length batch → hole p i;
  inv_finished : ∀ w, v w = Some Finished → currentIndex p = length batch;
  inv_failed : ∀ w e, v w = Some (Failed e) → is_Some (rejection p)
}.

(** What holds of the pool whether or not rollouts reject: the arrays
    keep the length of the batch, a suspended worker holds an example of the
    batch, and a rejection is the rejection of some rollout of the batch. *)
Record pool_shape (p : Pool) : Prop := {
  shape_lengths :
    length (pool_outputs p) = length batch ∧
    length (pool_scores p) = length batch ∧
    length (pool_trajectories p) = length batch;
  shape_held : ∀ w st, workers p !! w = Some st →
    match st with
    | AwaitRun i ex | AwaitMetric i ex _ => batch !! i = Some ex
    | Finished | Failed _ => True
    end;
  shape_rejection : ∀ e, rejection p = Some e →
    ∃ ex, ex ∈ batch ∧ call_run m h (inputs_of ex) = Threw e
}.

(** The view with worker [w] replaced. *)
Definition view_set (v : nat → option worker) (w : nat) (o : option worker)
  : nat → option worker :=
  λ w', if decide (w' = w) then o else v w'.

(** Resumptions still to come: two for a worker awaiting [run], one for a
    worker awaiting [metric], two for every index not yet claimed. *)
Definition weight (st : worker) : nat :=
  match st with
  | AwaitRun _ _ => 2
  | AwaitMetric _ _ _ => 1
  | Finished | Failed _ => 0
  end.

Definition remaining (p : Pool) : nat :=
  2 * (length batch - currentIndex p) + sum_list (weight <$> workers p).

End Evaluate.

(** [Module.evaluate]: the store it leaves and the way its promise
    settles.  The pool is read at rest: no worker of [final_pool] is
    suspended, whatever [sched] (lemma [final_pool_quiescent]). *)
Definition evaluate (m : Module) (h : Heap) (batch : list Example)
    (candidate : list (string * string)) (capture_traces : bool)
    (numWorkers : nat) (metric : MetricFunction)
    (mapper : option (Example → Example)) (sched : nat → nat)
  : Heap * completion EvaluationBatch :=
  let h' := update_candidate_prompts m h candidate in
  (h', settle capture_traces
         (final_pool m h' batch capture_traces metric mapper numWorkers sched)).

(** ** [ai-sdk/predict.ts]: the shim inside a rollout *)

Section Shim.

(** The model call of the [ai] package: the text it produces, or the
    error it fails with. *)
Variable llm : list Message → completion string.

(** [generateText] of the predictor at [l], inside a rollout whose trace
    is [tr].  [prepareMessages] runs before the [try]; the [catch] block
    reads [e.name], [e.message] (or [String(e)]) and [e.stack] before it
    pushes, like the one of [run], so what those reads throw replaces the
    exception and nothing is pushed.  The entry of a call that succeeds has
    no error field. *)
Definition generateText (h : Heap) (l : loc) (options : GenerateTextOptions)
    (tr : list TraceEntry) : list TraceEntry * completion string :=
  match prepareMessages (string_prop h l "instructions") options with
  | Threw e => (tr, Threw e)
  | Returned msgs =>
      match llm msgs with
      | Returned text =>
          (tr ++ [mkTraceEntry (string_prop h l "name") msgs text
                    JUndefined JUndefined JUndefined],
           Returned text)
      | Threw ThrownNullish =>
          (tr, Threw (TypeError
                 "Cannot read properties of undefined (reading 'name')"))
      | Threw (ThrownValue name message stack str status) =>
          (tr ++ [mkTraceEntry (string_prop h l "name") msgs ""
                    (or_else name "Error") (or_else message str)
                    (or_null stack)],
           Threw (ThrownValue name message stack str status))
      | Threw (ThrownUnreadable failure _) => (tr, Threw failure)
      end
  end.

Fixpoint host_run {A} (predictors : gmap string loc) (h : Heap)
    (prog : Host A) (tr : list TraceEntry) : list TraceEntry * completion A :=
  match prog with
  | Return a => (tr, Returned a)
  | Throw e => (tr, Threw e)
  | CallPredictor name options k =>
      match predictors !! name with
      | Some l =>
          let '(tr', c) := generateText h l options tr in
          host_run predictors h (k c) tr'
      | None =>
          host_run predictors h
            (k (Threw (TypeError ("Cannot read properties of undefined " +:+
                                  "(reading 'generateText')")))) tr
      end
  end.

(** The closure handed to [setForward]. *)
Definition forward_of (predictors : gmap string loc)
    (prog : Example → Host (nullable any)) : Forward :=
  λ h ex tr, host_run predictors h (prog ex) tr.

End Shim.

(** ** [teleprompt.ts] and [server.ts] *)

Record Payload := mkPayload {
  bestCandidate : list (string * string);
  results : any
}.

(** [options.numThreads] is a number, when it is given; nothing makes it a
    positive integer. *)
Record Teleprompt := mkTeleprompt {
  numThreads : option Q;
  metric : option MetricFunction;
  dataset : option Dataset;
  finalizeResolve : option resolver
}.

(** One optimization session: the [Teleprompt] instance, the student
    module and the store it lives in, the two promises of [compile] and
    whether the server is up. *)
Record Session := mkSession {
  teleprompt : Teleprompt;
  student : Module;
  heap : Heap;
  optimizationPromise : promise Payload;
  compilePromise : promise unit;
  listening : bool
}.

Definition set_heap (h : Heap) (s : Session) : Session :=
  mkSession (teleprompt s) (student s) h (optimizationPromise s)
    (compilePromise s) (listening s).

(** [resolve(student)] or [reject(err)] on the promise [compile] awaits.
    A settled promise ignores both; on settling, [compile] runs its
    [finally] block, which closes the server. *)
Definition settle_compile (outcome : promise unit) (s : Session) : Session :=
  match compilePromise s with
  | Pending =>
      mkSession (teleprompt s) (student s) (heap s) (optimizationPromise s)
        outcome false
  | Fulfilled _ | Rejected _ => s
  end.

(** The callback of [optimizationPromise.then(...)]. *)
Definition on_finalized (payload : Payload) (s : Session) : Session :=
  let '(h', exn) :=
    update_student (student s) (heap s) (bestCandidate payload) in
  match exn with
  | Some _ => set_heap h' s
  | None => settle_compile (Fulfilled ()) (set_heap h' s)
  end.

(** [async finalize(bestCandidate, results)]: resolving a promise that
    is already resolved does nothing, and the [then] callback runs once. *)
Definition finalize (best : list (string * string)) (res : any)
    (s : Session) : Session :=
  match finalizeResolve (teleprompt s) with
  | None => s
  | Some ResolveOptimization =>
      match optimizationPromise s with
      | Pending =>
          on_finalized (mkPayload best res)
            (mkSession (teleprompt s) (student s) (heap s)
               (Fulfilled (mkPayload best res)) (compilePromise s)
               (listening s))
      | Fulfilled _ | Rejected _ => s
      end
  end.

(** [pythonProcess.on("error", ...)]. *)
Definition on_error (err : thrown) (s : Session) : Session :=
  settle_compile (Rejected err) s.

Definition show_code (code : option Z) : string :=
  match code with Some z => pretty z | None => "null" end.

(** [pythonProcess.on("close", ...)]. *)
Definition on_close (code : option Z) (s : Session) : Session :=
  if decide (code = Some 0%Z) then s
  else settle_compile
         (Rejected (Error ("Optimization process failed with code " +:+
                           show_code code))) s.

Record MetricRequestEntry := mkEntry {
  gold : Example;
  entry_prediction : Prediction;
  entry_trace : option (list TraceEntry);
  pred_name : option string;
  pred_trace : option (list TraceEntry)
}.

Inductive request :=
| PostEvaluate (batch : list Example) (candidate : list (string * string))
    (capture_traces : bool)
| PostMetric (entries : list MetricRequestEntry)
| PostFinalize (best_candidate : list (string * string)) (res : any).

(** Reply bodies; [HandlerError] is Fastify's reply to a handler that
    throws. *)
Inductive body :=
| ErrorBody (error : string)
| ReportBody (report : EvaluationBatch)
| ScoresBody (entries : list ScoreWFeedback)
| StatusBody (status : string)
| HandlerError (e : thrown).

Record response := mkResponse { status : nat; payload : body }.

(** [teleprompt.options.numThreads || 4], as [Array.from({ length })]
    reads it: zero is falsy and counts as 4; any other number is
    truncated, and gives no worker when it is below 1. *)
Definition num_workers (t : Teleprompt) : nat :=
  match numThreads t with
  | Some q => if Qeq_bool q 0 then 4 else Z.to_nat (Qfloor q)
  | None => 4
  end.

(** The status of Fastify's reply to a handler that throws: the error's
    [statusCode] when that is an error status, and 500 otherwise. *)
Definition error_status (e : thrown) : nat :=
  match e with
  | ThrownValue _ _ _ _ (Some n) | ThrownUnreadable _ (Some n) =>
      if decide (400 ≤ n ≤ 599) then n else 500
  | ThrownValue _ _ _ _ None | ThrownUnreadable _ None | ThrownNullish => 500
  end.

(** [Promise.all(entries.map(async (entry) => ...))] of the metric
    endpoint: nothing catches here.  When several entries fail the reply
    carries one of the failures; the model takes the first in the list. *)
Fixpoint score_entries (mf : MetricFunction)
    (entries : list MetricRequestEntry) : completion (list ScoreWFeedback) :=
  match entries with
  | [] => Returned []
  | e :: es =>
      match normalize (mf (gold e) (entry_prediction e) (entry_trace e)
                         (pred_name e) (pred_trace e)) with
      | Threw x => Threw x
      | Returned sc =>
          match score_entries mf es with
          | Returned scs => Returned (sc :: scs)
          | Threw x => Threw x
          end
      end
  end.

(** The three routes of [createServer(teleprompt, module)].  [sched] is
    the interleaving the event loop gives the workers of an evaluate
    request. *)
Definition handle (sched : nat → nat) (s : Session) (r : request)
  : Session * response :=
  match r with
  | PostEvaluate batch candidate capture_traces =>
      match metric (teleprompt s) with
      | None =>
          (s, mkResponse 500
                (ErrorBody "Metric not configured on Teleprompt instance"))
      | Some mf =>
          match this_get (student s) "evaluate" with
          | MFunction =>
              let '(h', c) :=
                evaluate (student s) (heap s) batch candidate capture_traces
                  (num_workers (teleprompt s)) mf
                  (getInputs <$> dataset (teleprompt s)) sched in
              (set_heap h' s,
               match c with
               | Returned report => mkResponse 200 (ReportBody report)
               | Threw e => mkResponse (error_status e) (HandlerError e)
               end)
          | MObject _ | MUndefined =>
              (s, mkResponse 500
                    (HandlerError
                       (TypeError "module.evaluate is not a function")))
          end
      end
  | PostMetric entries =>
      match metric (teleprompt s) with
      | None =>
          (s, mkResponse 500
                (ErrorBody "Metric not configured on Teleprompt instance"))
      | Some mf =>
          (s, match score_entries mf entries with
              | Returned scs => mkResponse 200 (ScoresBody scs)
              | Threw e => mkResponse (error_status e) (HandlerError e)
              end)
      end
  | PostFinalize best res =>
      (finalize best res s, mkResponse 200 (StatusBody "ok"))
  end.

(** A server answering requests one after the other. *)
Fixpoint serve (s : Session) (rs : list (request * (nat → nat)))
  : Session * list response :=
  match rs with
  | [] => (s, [])
  | (r, sched) :: rs' =>
      let '(s', reply) := handle sched s r in
      let '(s'', replies) := serve s' rs' in
      (s'', reply :: replies)
  end.

(** What reaches a running [compile]: requests of the optimizer and the
    two events of the spawned process. *)
Inductive signal :=
| Http (r : request) (sched : nat → nat)
| ProcessError (err : thrown)
| ProcessClose (code : option Z).

(** A request that reaches its route is handled whether or not [compile]
    has settled: closing the server lets the requests in flight finish. *)
Definition step (s : Session) (ev : signal) : Session :=
  match ev with
  | Http r sched => (handle sched s r).1
  | ProcessError err => on_error err s
  | ProcessClose code => on_close code s
  end.

(** [compile] up to the point where it awaits: [metric] and [dataset]
    bound, the server listening, [finalizeResolve] armed, the process
    spawned.  Writing the dataset and the configuration file is outside
    this model. *)
Definition compile_start (t : Teleprompt) (module : Module) (h : Heap)
    (mf : MetricFunction) (ds : Dataset) : Session :=
  mkSession (mkTeleprompt (numThreads t) (Some mf) (Some ds)
               (Some ResolveOptimization))
    module h Pending Pending true.

(** The session after the signals [evs]; [compilePromise] tells how the
    call has settled, if it has. *)
Definition compile (t : Teleprompt) (module : Module) (h : Heap)
    (mf : MetricFunction) (ds : Dataset) (evs : list signal) : Session :=
  foldl step (compile_start t module h mf ds) evs.

(** The signals that can settle [compile]. *)
Definition decisive (ev : signal) : bool :=
  match ev with
  | Http (PostFinalize _ _) _ => true
  | Http _ _ => false
  | ProcessError _ => true
  | ProcessClose code => negb (bool_decide (code = Some 0%Z))
  end.

(** [compile] is still waiting: armed, and neither promise settled. *)
Definition awaiting (module : Module) (s : Session) : Prop :=
  student s = module ∧
  finalizeResolve (teleprompt s) = Some ResolveOptimization ∧
  optimizationPromise s = Pending ∧
  compilePromise s = Pending.

(** The requests that need the scoring function. *)
Definition scoring_request (r : request) : bool :=
  match r with
  | PostEvaluate _ _ _ | PostMetric _ => true
  | PostFinalize _ _ => false
  end.

(** ** The two sides of a [Prediction] *)

(** The success side: an output that is not null, and no error field. *)
Definition success_side (p : Prediction) : Prop :=
  p_output p ≠ Null ∧
  errorType p = JNull ∧ errorMessage p = JNull ∧ errorTraceback p = JNull.

(** The failure side: kind and message, and a null output. *)
Definition failure_side (p : Prediction) : Prop :=
  p_output p = Null ∧ errorType p ≠ JNull ∧ errorMessage p ≠ JNull.

Definition exactly_one_side (p : Prediction) : Prop :=
  (success_side p ∧ ¬ failure_side p) ∨ (failure_side p ∧ ¬ success_side p).

(** What [run] builds: on success the three error fields are [null] and
    [output] is whatever forward logic returned, [null] and [undefined]
    included; on failure [output] is [null], and the kind and the message
    are set. *)
Definition success_record (p : Prediction) : Prop :=
  errorType p = JNull ∧ errorMessage p = JNull ∧ errorTraceback p = JNull.

Definition failure_record (p : Prediction) : Prop :=
  p_output p = Null ∧ is_set (errorType p) ∧ is_set (errorMessage p).

End Harness.

(** * Traces and host logic

    ** What a trace entry shows

    The entry was recorded by a predictor among [predictors], and the
    messages sent open with the one system message, which holds the
    instructions the store [h] has for that predictor. *)
Definition carries_instructions (predictors : gmap string loc) (h : Heap)
    (e : TraceEntry) : Prop :=
  ∃ name l rest,
    predictors !! name = Some l ∧
    predictor e = string_prop h l "name" ∧
    input e = mkMessage "system" (string_prop h l "instructions") :: rest ∧
    Forall (λ msg, role msg ≠ "system") rest.

(** ** Forward logic whose exceptions can be described

    Host logic whose every [throw] throws a value that the [catch] block of
    [run] can describe (an [Error], a string, a number: not [null],
    [undefined] or a value whose reads throw), given that a failed predictor
    call hands it such a value. *)
Inductive throws_values {A} : Host A → Prop :=
| throws_values_return a : throws_values (Return a)
| throws_values_throw e : describable e = true → throws_values (Throw e)
| throws_values_call name options k :
    (∀ c, (∀ e, c = Threw e → describable e = true) → throws_values (k c)) →
    throws_values (CallPredictor name options k).

(** ** Names every object inherits

    The members of [Object.prototype].  The store holds the own properties
    of an object; a lookup [o[name]] or a test [name in o] with one of these
    names finds the inherited member where the object has none of its own,
    and an assignment to [__proto__] changes the prototype instead of
    adding a property.  The properties below are stated for names outside
    this list. *)
Definition Object_prototype : list string :=
  ["constructor"; "__proto__"; "hasOwnProperty"; "isPrototypeOf";
   "propertyIsEnumerable"; "toLocaleString"; "toString"; "valueOf";
   "__defineGetter__"; "__defineSetter__"; "__lookupGetter__";
   "__lookupSetter__"].

(** * Construction and persistence

    [new Module(...)], [Module.save] and [Module.load], the seed candidate
    of [Teleprompt.compile] and [new Dataset(...)]. *)

(** A file written by [save] holds the JSON text of an object whose
    values are strings; the model keeps the entries that text lists, in
    their order, in place of the text. *)
Abbreviation Files := (gmap string (list (string * string))).

Section Persistence.

Context {any : Type}.

(** ** [Object.entries]

    The objects of the store do not keep the order in which their
    properties were created.  Where the source iterates over
    [Object.entries(o)], the entries are a parameter [es], which lists the
    object at [l] when it holds each property of the object once.  The
    order JavaScript gives is one such listing, so what holds of every
    listing holds of it. *)
Definition listing (h : Heap) (l : loc) (es : list (string * value)) : Prop :=
  NoDup es.*1 ∧ ∀ k v, (k, v) ∈ es ↔ get_prop h l k = Some v.

(** A listing, in the order of the store's maps. *)
Definition Object_entries (h : Heap) (l : loc) : list (string * value) :=
  map_to_list (default ∅ (h !! l)).

(** ** [models.ts]: the constructor of [Module]

    [for (const [name, predictor] of Object.entries(predictors)) {
       predictor.name = name;
       this[name] = predictor;
     }]
    The state is the store, the members attached so far and the exception,
    once one is thrown: a class body is strict-mode code, where assigning a
    property on a string throws. *)
Definition attach (st : Heap * gmap string loc * option thrown)
    (e : string * value) : Heap * gmap string loc * option thrown :=
  match st.2 with
  | Some _ => st
  | None =>
      match e.2 with
      | VObject l =>
          (set_prop st.1.1 l "name" (VString e.1), <[e.1 := l]> st.1.2, None)
      | VString _ =>
          (st.1.1, st.1.2,
           Some (TypeError "Cannot create property 'name' on string"))
      end
  end.

(** [new Module(predictors, forward)], where [es] lists the record at
    [predictors]. *)
Definition new_Module (h : Heap) (predictors : loc)
    (es : list (string * value)) (forward : option (Forward (any:=any)))
  : Heap * completion (Module (any:=any)) :=
  let st := foldl attach (h, ∅, None) es in
  (st.1.1,
   match st.2 with
   | Some e => Threw e
   | None => Returned (mkModule predictors st.1.2 forward)
   end).

(** ** [models.ts]: [save] and [load]; [teleprompt.ts]: the seed candidate

    [state[name] = predictor.instructions] for one entry of the record, as
    [JSON.stringify] writes it: a property whose value is [undefined] is
    left out.  An [instructions] field that holds an object has a JSON text
    this model does not describe: [None]. *)
Definition state_entry (h : Heap) (e : string * value)
  : option (list (string * string)) :=
  match e.2 with
  | VString _ => Some []
  | VObject l =>
      match get_prop h l "instructions" with
      | None => Some []
      | Some (VString s) => Some [(e.1, s)]
      | Some (VObject _) => None
      end
  end.

(** The object [save] serializes, where [es] lists [this._predictors]. *)
Definition state_of (h : Heap) (es : list (string * value))
  : option (list (string * string)) :=
  mjoin <$> mapM (state_entry h) es.


(** [load(filePath)]: [fs.readFileSync] throws when there is no such
    file; the loop is the one of [compile]'s callback. *)
Definition load (m : Module (any:=any)) (h : Heap) (files : Files)
    (filePath : string) : Heap * option thrown :=
  match files !! filePath with
  | None =>
      (h, Some (Error ("ENOENT: no such file or directory, open '" +:+
                       filePath +:+ "'")))
  | Some state => update_student m h state
  end.

(** [compile], step 2: [seedCandidate[name] = predictor.instructions] over
    the entries [es] of [student._predictors], as it is written to the
    configuration file. *)
Definition seedCandidate (h : Heap) (es : list (string * value))
  : option (list (string * string)) :=
  state_of h es.

(** ** [dataset.ts]: the constructor of [Dataset]

    [new Dataset(data, inputs)] with [inputs] an array of field names:
    [for (const input of inputs) inputsDict[input] = input].  A name that
    is assigned again keeps its place.  [Object.entries] lists
    integer-like names first and the others in the order they were added;
    the model keeps the latter order for all names, and [getInputs] with
    such entries does not depend on their order, as is proved below. *)
Definition new_Dataset (inputs : list string) : Dataset :=
  mkDataset
    (foldl (λ (inputsDict : list (string * string)) input,
              if decide (input ∈ inputsDict.*1) then inputsDict
              else inputsDict ++ [(input, input)]) [] inputs).

End Persistence.


(** * A classifier, after the package's README

    Examples hold strings and scores are integers; the model is a table. *)

Definition record_loc : loc := 1%positive.
Definition judge_loc : loc := 2%positive.

Definition classifier_store : Heap :=
  {[ record_loc := {[ "judge" := VObject judge_loc ]};
     judge_loc :=
       {[ "instructions" :=
            VString "Classify the ticket into: Billing, Technical, or General.";
          "name" := VString "judge" ]} ]}.

Definition classifier_llm (msgs : list Message) : completion string :=
  match last msgs with
  | Some msg =>
      if decide (content msg = "Ticket: I can't log into my account.")
      then Returned "Technical"
      else if decide (content msg = "Ticket: Where is my order #123?")
      then Returned "General"
      else Threw (ThrownValue (JString "AI_APICallError")
                    (JString "rate limited") JUndefined
                    "AI_APICallError: rate limited" (Some 429))
  | None => Threw (Error "no messages")
  end.

(** [async (inputs) => { const { text } = await classifier.judge
      .generateText({ prompt: `Ticket: ${inputs.ticket}` }); return text; }],
    preceded by [if (inputs.ticket === undefined) return null;]. *)
Definition classifier_forward (inputs : gmap string string)
  : Host (nullable string) :=
  match inputs !! "ticket" with
  | Some ticket =>
      CallPredictor "judge" (mkOptions None (Some ("Ticket: " +:+ ticket)))
        (λ c, match c with
              | Returned text => Return (Value text)
              | Threw e => Throw e
              end)
  | None => Return Null
  end.

Definition classifier : Module (any:=string) :=
  mkModule record_loc {[ "judge" := judge_loc ]}
    (Some (forward_of classifier_llm {[ "judge" := judge_loc ]}
             classifier_forward)).

(** Forward logic that gives up on a timer:
    [await new Promise((_, reject) => setTimeout(reject, 1000))] rejects
    with [undefined], after one call of the predictor. *)
Definition impatient_forward (inputs : gmap string string)
  : Host (nullable string) :=
  CallPredictor "judge" (mkOptions None (Some "Ticket: Where is my order #123?"))
    (λ _, Throw ThrownNullish).

Definition impatient : Module (any:=string) :=
  mkModule record_loc {[ "judge" := judge_loc ]}
    (Some (forward_of classifier_llm {[ "judge" := judge_loc ]}
             impatient_forward)).

Definition label_metric : MetricFunction (any:=string) (number:=Z) :=
  λ ex p _ _ _,
    match ex !! "label" with
    | None => MThrows (Error "example has no label")
    | Some label =>
        if decide (p_output p = Value label)
        then MScored 1%Z (Some "Correctly labeled.")
        else MNumber 0%Z
    end.

Definition trainset : list (gmap string string) :=
  [ {[ "ticket" := "I can't log into my account."; "label" := "Technical" ]};
    {[ "ticket" := "Where is my order #123?"; "label" := "Billing" ]};
    {[ "ticket" := "Is anybody there?" ]} ].

Definition ticket_inputs : Dataset := mkDataset [("ticket", "ticket")].

Definition new_prompt : list (string * string) :=
  [("judge", "Classify the support ticket.")].

(** An interleaving: of [k] suspended workers, always resume number
    [3 mod k]. *)
Definition interleaving (t : nat) : nat := 3.

Definition unconfigured : Session (any:=string) (number:=Z) :=
  mkSession (mkTeleprompt (Some 4%Q) None None None) classifier classifier_store
    Pending Pending true.

Definition optimizer : Teleprompt (any:=string) (number:=Z) :=
  mkTeleprompt (Some 2%Q) None None None.

(** Signals of a session: an evaluation, a process that exits cleanly...
    then the optimizer's verdict, a failing exit and a late second
    verdict. *)
Definition before_verdict : list (signal (any:=string)) :=
  [ Http (PostEvaluate trainset new_prompt false) interleaving;
    ProcessClose (Some 0%Z) ].

Definition verdict : signal (any:=string) :=
  Http (PostFinalize [("judge", "Sort the ticket.")] "results") interleaving.

Definition after_verdict : list (signal (any:=string)) :=
  [ ProcessClose (Some 1%Z);
    Http (PostFinalize [("judge", "Too late.")] "other results") interleaving ].
(** * The classifier before construction, and what the witnesses use *)

(** The store before [new Module({ judge: new Predict("...") })]: the
    predictor has its instructions and the empty name of a new
    [Predict]. *)
Definition unnamed_store : Heap :=
  {[ record_loc := {[ "judge" := VObject judge_loc ]};
     judge_loc :=
       {[ "instructions" :=
            VString "Classify the ticket into: Billing, Technical, or General.";
          "name" := VString "" ]} ]}.

(** The classifier before [setForward]. *)
Definition unforwarded : Module (any:=string) :=
  mkModule record_loc {[ "judge" := judge_loc ]} None.


(** A session whose [compile] is waiting. *)
Definition configured : Session (any:=string) (number:=Z) :=
  compile_start optimizer classifier classifier_store label_metric
    ticket_inputs.

(** The same session, configured with half a thread. *)
Definition underthreaded : Session (any:=string) (number:=Z) :=
  compile_start (mkTeleprompt (Some (1 # 2)%Q) None None None) classifier
    classifier_store label_metric ticket_inputs.


(** A file of prompts, one of them for a predictor the classifier does
    not have. *)
Definition prompt_files : Files :=
  {[ "prompts.json" :=
       [("judge", "Reply with one word."); ("router", "Unused.")] ]}.


(** * Properties of the worker pool *)

Section PoolProperties.

Context {any number : Type} (zero : number) (show_number : number → string).
Variables (m : Module (any:=any)) (h : Heap) (batch : list (gmap string any)).
Variables (capture_traces : bool) (mf : MetricFunction (any:=any) (number:=number)).
Variable mapper : option (gmap string any → gmap string any).

Local Abbreviation inv :=
  (pool_inv zero show_number m h batch capture_traces mf mapper).
Local Abbreviation resume_ :=
  (resume zero show_number m h batch capture_traces mf mapper).
Local Abbreviation run_pool_ :=
  (run_pool zero show_number m h batch capture_traces mf mapper).
Local Abbreviation written_ := (written zero show_number capture_traces mf).
Local Abbreviation judged_ := (judged zero show_number mf).
Local Abbreviation view p := (λ w : nat, workers p !! w).
Local Abbreviation pool := (Pool (any:=any) (number:=number)).

(** ** Arrays *)

Lemma array_set_length {A} (arr : list (option A)) i v :
  i < length arr → length (array_set arr i v) = length arr.
Proof.
  intros Hi. unfold array_set. case_decide; [|lia]. by rewrite length_insert.
Qed.

Lemma array_set_lookup_eq {A} (arr : list (option A)) i v :
  i < length arr → array_set arr i v !! i = Some (Some v).
Proof.
  intros Hi. unfold array_set. case_decide; [|lia].
  by apply list_lookup_insert_eq.
Qed.

Lemma array_set_lookup_ne {A} (arr : list (option A)) i j v :
  i < length arr → i ≠ j → array_set arr i v !! j = arr !! j.
Proof.
  intros Hi Hne. unfold array_set. case_decide; [|lia].
  by apply list_lookup_insert_ne.
Qed.

(** ** Pairs with distinct second components *)

Lemma snd_determines_fst (l : list (nat * nat)) w1 w2 i :
  NoDup (l.*2) → (w1, i) ∈ l → (w2, i) ∈ l → w1 = w2.
Proof.
  induction l as [|[w j] l IH]; simpl; intros Hnd H1 H2.
  - by apply elem_of_nil in H1.
  - apply NoDup_cons in Hnd as [Hj Hnd].
    apply elem_of_cons in H1 as [H1|H1]; apply elem_of_cons in H2 as [H2|H2].
    + congruence.
    + inversion H1; subst. destruct Hj.
      apply list_elem_of_fmap. by exists (w2, j).
    + inversion H2; subst. destruct Hj.
      apply list_elem_of_fmap. by exists (w1, j).
    + by apply IH.
Qed.

Lemma not_in_seq_snd (l : list (nat * nat)) c w :
  l.*2 = seq 0 c → (w, c) ∉ l.
Proof.
  intros Hl Hin.
  assert (c ∈ l.*2) as Hc by (apply list_elem_of_fmap; by exists (w, c)).
  rewrite Hl in Hc. apply elem_of_seq in Hc. lia.
Qed.

(** ** The invariant looks at the workers through the view only *)

Lemma pool_inv_ext v1 v2 p : (∀ w, v1 w = v2 w) → inv v1 p → inv v2 p.
Proof.
  intros Hext [Hc Hl Hcl Hr Hm Hcd Hp Hw Hh Hf Hfl].
  constructor; try done.
  - intros w i ex Hv. rewrite <- Hext in Hv. eauto.
  - intros w i ex r Hv. rewrite <- Hext in Hv. eauto.
  - intros w i Hin. rewrite <- !Hext. eauto.
  - intros w Hv. rewrite <- Hext in Hv. eauto.
  - intros w e Hv. rewrite <- Hext in Hv. eauto.
Qed.

Lemma pool_inv_workers v p ws :
  inv v p →
  inv v (mkPool (currentIndex p) (pool_outputs p) (pool_scores p)
           (pool_trajectories p) ws (rejection p) (history p)).
Proof. intros []. by constructor. Qed.

Lemma view_insert (ws : list (worker (any:=any))) w st w' :
  w < length ws →
  <[w := st]> ws !! w' = view_set (λ k, ws !! k) w (Some st) w'.
Proof.
  intros Hw. unfold view_set. case_decide as Heq.
  - subst. by apply list_lookup_insert_eq.
  - by apply list_lookup_insert_ne.
Qed.

Lemma view_snoc (ws : list (worker (any:=any))) st w' :
  (ws ++ [st]) !! w' = view_set (λ k, ws !! k) (length ws) (Some st) w'.
Proof.
  unfold view_set. case_decide as Heq.
  - subst. by rewrite lookup_app_r, Nat.sub_diag.
  - destruct (decide (w' < length ws)).
    + by rewrite lookup_app_l.
    + rewrite !lookup_ge_None_2; [done|lia|].
      rewrite length_app. simpl. lia.
Qed.

(** ** What each stretch of a worker does to the observations *)

Lemma claims_record w i ex r s (p : pool) :
  claims (record_result capture_traces w i ex r s p) = claims p.
Proof.
  unfold claims, record_result. simpl. rewrite omap_app. simpl.
  by rewrite app_nil_r.
Qed.

Lemma processed_record w i ex r s (p : pool) :
  processed (record_result capture_traces w i ex r s p)
  = processed p ++ [(w, i)].
Proof. unfold processed, record_result. simpl. by rewrite omap_app. Qed.

Lemma claims_functional v p w1 w2 i :
  inv v p → (w1, i) ∈ claims p → (w2, i) ∈ claims p → w1 = w2.
Proof.
  intros [_ _ Hcl _ _ _ _ _ _ _ _]. apply snd_determines_fst.
  rewrite Hcl. apply NoDup_seq.
Qed.

Lemma unprocessed_index v p w i :
  inv v p → (w, i) ∈ claims p → (w, i) ∉ processed p →
  i ∉ (processed p).*2.
Proof.
  intros Hinv Hin Hnp Hx.
  apply list_elem_of_fmap in Hx as [[w' i'] [Heq Hx]]. simpl in Heq. subst i'.
  assert (w' = w) as ->; [|done].
  eapply claims_functional; [done| |done].
  destruct Hinv as [_ _ _ _ _ _ [_ Hsub] _ _ _ _]. by apply Hsub.
Qed.

(** ** The invariant is kept by each stretch *)

(** [await this.run(inputs)] delivers a result. *)
Lemma pool_inv_run_returned v p w i ex r :
  inv v p → v w = Some (AwaitRun i ex) →
  call_run m h (inputs_of mapper ex) = Returned r →
  inv (view_set v w (Some (AwaitMetric i ex r))) p.
Proof.
  intros [Hc Hl Hcl Hr Hm Hcd Hp Hw Hh Hf Hfl] Hv Hrun.
  destruct (Hr _ _ _ Hv) as (Hb & Hin & Hnp).
  constructor; try done.
  - intros w' i' ex'. unfold view_set. case_decide; [done|]. apply Hr.
  - intros w' i' ex' r'. unfold view_set. case_decide; [|apply Hm].
    intros [= -> -> ->]. by subst.
  - intros w' i' Hin'. unfold view_set.
    destruct (Hcd _ _ Hin') as [?|[[ex' Hx]|[(ex' & r' & Hx)|[e' Hx]]]].
    + by left.
    + case_decide; [|right; left; eauto]. subst w'.
      rewrite Hv in Hx. injection Hx as -> ->. right; right; left; eauto.
    + case_decide; [subst; congruence|]. right; right; left; eauto.
    + case_decide; [subst; congruence|]. right; right; right; eauto.
  - intros w'. unfold view_set. case_decide; [done|apply Hf].
  - intros w' e. unfold view_set. case_decide; [done|apply Hfl].
Qed.

(** [await this.run(inputs)] throws: the worker's promise rejects, and
    the index it held is lost with it. *)
Lemma pool_inv_run_threw v p w i ex e :
  inv v p → v w = Some (AwaitRun i ex) →
  inv (view_set v w (Some (Failed e))) (fail_worker w e p).
Proof.
  intros [Hc Hl Hcl Hr Hm Hcd Hp Hw Hh Hf Hfl] Hv.
  constructor; try done.
  - intros w' i' ex'. unfold view_set. case_decide; [done|]. apply Hr.
  - intros w' i' ex' r'. unfold view_set. case_decide; [done|apply Hm].
  - intros w' i' Hin'. unfold view_set.
    destruct (Hcd _ _ Hin') as [?|[[ex' Hx]|[(ex' & r' & Hx)|[e' Hx]]]].
    + by left.
    + case_decide; [right; right; right; eauto|right; left; eauto].
    + case_decide; [subst; congruence|]. right; right; left; eauto.
    + case_decide; right; right; right; eauto.
  - intros w'. unfold view_set. case_decide; [done|apply Hf].
  - intros w' e' _. simpl. destruct (rejection p); eauto.
Qed.

(** The writes that follow [await metric(...)]. *)
Lemma pool_inv_record v p w i ex r :
  inv v p → v w = Some (AwaitMetric i ex r) →
  inv (view_set v w None)
    (record_result capture_traces w i ex r (judged_ ex r) p).
Proof.
  intros Hinv Hv.
  pose proof Hinv as [Hc (Hlo & Hls & Hlt) Hcl Hr Hm Hcd [Hnd Hsub] Hw Hh Hf
                        Hfl].
  destruct (Hm _ _ _ _ Hv) as (Hb & Hrun & Hin & Hnp).
  assert (i < length batch) as Hi by by eapply lookup_lt_Some.
  assert (i ∉ (processed p).*2) as Hfresh
    by by eapply unprocessed_index.
  constructor.
  - done.
  - simpl. rewrite !array_set_length by lia.
    destruct capture_traces; rewrite ?array_set_length by lia; done.
  - by rewrite claims_record.
  - intros w' i' ex'. unfold view_set. case_decide; [done|]. intros Hv'.
    destruct (Hr _ _ _ Hv') as (? & ? & ?).
    rewrite claims_record, processed_record. split_and!; try done.
    rewrite elem_of_app, list_elem_of_singleton. intros [?|[= ? ?]]; done.
  - intros w' i' ex' r'. unfold view_set. case_decide; [done|]. intros Hv'.
    destruct (Hm _ _ _ _ Hv') as (? & ? & ? & ?).
    rewrite claims_record, processed_record. split_and!; try done.
    rewrite elem_of_app, list_elem_of_singleton. intros [?|[= ? ?]]; done.
  - intros w' i'. rewrite claims_record, processed_record. intros Hin'.
    unfold view_set.
    destruct (Hcd _ _ Hin') as [?|[[ex' Hx]|[(ex' & r' & Hx)|[e' Hx]]]].
    + left. apply elem_of_app. by left.
    + case_decide; [subst; congruence|]. right; left; eauto.
    + case_decide; [|right; right; left; eauto]. subst w'.
      rewrite Hv in Hx. injection Hx as -> _ _.
      left. apply elem_of_app. right. by apply list_elem_of_singleton.
    + case_decide; [subst; congruence|]. right; right; right; eauto.
  - rewrite claims_record, processed_record. split.
    + apply NoDup_app. split_and!; [done| |apply NoDup_singleton].
      intros x Hx Hx'. apply list_elem_of_singleton in Hx'. by subst.
    + intros x Hx. apply elem_of_app in Hx as [Hx|Hx]; [by apply Hsub|].
      apply list_elem_of_singleton in Hx. by subst.
  - intros i'. rewrite processed_record, fmap_app. simpl.
    rewrite elem_of_app, list_elem_of_singleton. intros [Hold| ->].
    + assert (i ≠ i') by (intros ->; done).
      destruct (Hw _ Hold) as (ex' & r' & ? & ? & (Ho & Hs & Ht)).
      exists ex', r'. split_and!; try done. unfold written. simpl.
      rewrite !array_set_lookup_ne by (done || lia).
      destruct capture_traces;
        rewrite ?array_set_lookup_ne by (done || lia); done.
    + exists ex, r. split_and!; try done. unfold written. simpl.
      rewrite !array_set_lookup_eq by lia.
      destruct capture_traces; rewrite ?array_set_lookup_eq by lia; [done|].
      split_and!; try done.
      destruct (Hh _ Hfresh Hi) as (_ & _ & ?). done.
  - intros i'. rewrite processed_record, fmap_app. simpl.
    rewrite elem_of_app, list_elem_of_singleton. intros Hn Hi'.
    assert (i ≠ i') by (intros ->; apply Hn; by right).
    destruct (Hh i') as (Ho & Hs & Ht); [by intros ?; apply Hn; left|done|].
    unfold hole. simpl. rewrite !array_set_lookup_ne by (done || lia).
    destruct capture_traces;
      rewrite ?array_set_lookup_ne by (done || lia); done.
  - intros w'. unfold view_set. case_decide; [done|apply Hf].
  - intros w' e. unfold view_set. case_decide; [done|apply Hfl].
Qed.

(** The loop test and the claim, by a worker that holds no index. *)
Lemma pool_inv_loop_head v (p p' : pool) w st :
  inv v p → v w = None → loop_head batch w p = (p', st) →
  inv (view_set v w (Some st)) p'.
Proof.
  intros Hinv Hv Hlh.
  pose proof Hinv as [Hc Hl Hcl Hr Hm Hcd [Hnd Hsub] Hw Hh Hf Hfl].
  unfold loop_head in Hlh. case_decide as Hlt.
  - destruct (lookup_lt_is_Some_2 batch (currentIndex p) Hlt) as [ex Hex].
    rewrite Hex in Hlh. injection Hlh as <- <-.
    assert (∀ x, x ∈ claims p →
                 x ∈ omap claim_of (history p ++ [Claimed w (currentIndex p)]))
      as Hmono.
    { intros x Hx. rewrite omap_app. apply elem_of_app. by left. }
    constructor; unfold claims, processed, written, hole in *; simpl.
    + lia.
    + done.
    + rewrite omap_app, fmap_app, Hcl. symmetry. apply (seq_S _ 0).
    + intros w' i' ex'. unfold view_set. case_decide.
      * intros [= <- <-]. subst w'. split_and!; [done| |].
        -- rewrite omap_app. apply elem_of_app. right. simpl.
           by apply list_elem_of_singleton.
        -- rewrite omap_app. simpl. rewrite app_nil_r. intros Hx.
           apply Hsub in Hx. by eapply not_in_seq_snd.
      * intros Hv'. destruct (Hr _ _ _ Hv') as (? & ? & ?).
        split_and!; [done|by apply Hmono|].
        rewrite omap_app. simpl. by rewrite app_nil_r.
    + intros w' i' ex' r'. unfold view_set. case_decide; [done|].
      intros Hv'. destruct (Hm _ _ _ _ Hv') as (? & ? & ? & ?).
      split_and!; [done|done|by apply Hmono|].
      rewrite omap_app. simpl. by rewrite app_nil_r.
    + intros w' i'. rewrite !omap_app. simpl. rewrite app_nil_r.
      rewrite elem_of_app, list_elem_of_singleton. unfold view_set.
      intros [Hold|[= -> ->]].
      * destruct (Hcd _ _ Hold) as [?|[[ex' Hx]|[(ex' & r' & Hx)|[e' Hx]]]].
        -- by left.
        -- case_decide; [subst; congruence|]. right; left; eauto.
        -- case_decide; [subst; congruence|]. right; right; left; eauto.
        -- case_decide; [subst; congruence|]. right; right; right; eauto.
      * case_decide; [|done]. right; left; eauto.
    + rewrite !omap_app. simpl. rewrite app_nil_r. split; [done|].
      intros x Hx. apply elem_of_app. left. by apply Hsub.
    + rewrite omap_app. simpl. rewrite app_nil_r. apply Hw.
    + rewrite omap_app. simpl. rewrite app_nil_r. apply Hh.
    + intros w'. unfold view_set. case_decide; [done|]. intros Hv'.
      apply Hf in Hv'. lia.
    + intros w' e. unfold view_set. case_decide; [done|apply Hfl].
  - injection Hlh as <- <-. constructor; try done.
    + intros w' i' ex'. unfold view_set. case_decide; [done|apply Hr].
    + intros w' i' ex' r'. unfold view_set. case_decide; [done|apply Hm].
    + intros w' i' Hin. unfold view_set.
      destruct (Hcd _ _ Hin) as [?|[[ex' Hx]|[(ex' & r' & Hx)|[e' Hx]]]].
      * by left.
      * case_decide; [subst; congruence|]. right; left; eauto.
      * case_decide; [subst; congruence|]. right; right; left; eauto.
      * case_decide; [subst; congruence|]. right; right; right; eauto.
    + intros w'. unfold view_set. case_decide; [lia|apply Hf].
    + intros w' e. unfold view_set. case_decide; [done|apply Hfl].
Qed.

Lemma loop_head_workers (p p' : pool) w st :
  loop_head batch w p = (p', st) → workers p' = workers p.
Proof.
  unfold loop_head. case_decide; [|by intros [= <- _]].
  destruct (batch !! currentIndex p); by intros [= <- _].
Qed.

Lemma resume_length (p : pool) w :
  length (workers (resume_ w p)) = length (workers p).
Proof.
  unfold resume.
  destruct (workers p !! w) as [[i ex|i ex r| |e]|]; try done.
  - destruct (call_run _ _ _); simpl; by rewrite length_insert.
  - destruct (loop_head batch w _) as [p' st] eqn:Hlh.
    apply loop_head_workers in Hlh. simpl in *.
    by rewrite length_insert, Hlh.
Qed.

(** ** Starting the workers *)

Lemma pool_inv_initial :
  inv (view (initial_pool (number:=number) batch))
    (initial_pool (number:=number) batch).
Proof.
  constructor; unfold claims, processed, hole; simpl.
  - lia.
  - by rewrite !length_replicate.
  - done.
  - intros w i ex Hv. by rewrite lookup_nil in Hv.
  - intros w i ex r Hv. by rewrite lookup_nil in Hv.
  - intros w i Hin. by apply elem_of_nil in Hin.
  - split; [apply NoDup_nil_2|done].
  - intros i Hin. by apply elem_of_nil in Hin.
  - intros i _ Hi. by rewrite !lookup_replicate_2.
  - intros w Hv. by rewrite lookup_nil in Hv.
  - intros w e Hv. by rewrite lookup_nil in Hv.
Qed.

Lemma pool_inv_start_worker (p : pool) :
  inv (view p) p → inv (view (start_worker batch p)) (start_worker batch p).
Proof.
  intros Hinv. unfold start_worker.
  destruct (loop_head batch (length (workers p)) p) as [p' st] eqn:Hlh.
  pose proof (loop_head_workers _ _ _ _ Hlh) as Hws.
  eapply pool_inv_loop_head in Hlh; [|exact Hinv|].
  2:{ simpl. by apply lookup_ge_None_2. }
  apply (pool_inv_workers _ _ (workers p' ++ [st])).
  eapply pool_inv_ext; [|exact Hlh].
  intros w'. simpl. rewrite Hws. symmetry. apply view_snoc.
Qed.

Lemma start_worker_length (p : pool) :
  length (workers (start_worker batch p)) = S (length (workers p)).
Proof.
  unfold start_worker.
  destruct (loop_head batch (length (workers p)) p) as [p' st] eqn:Hlh.
  apply loop_head_workers in Hlh. simpl. rewrite Hlh, length_app. simpl. lia.
Qed.

(** ** Termination: every resumption uses up one unit of [remaining] *)

Lemma loop_head_remaining (p p' : pool) w st :
  loop_head batch w p = (p', st) →
  2 * (length batch - currentIndex p') + weight st
  ≤ 2 * (length batch - currentIndex p).
Proof.
  unfold loop_head. case_decide; [|intros [= <- <-]; simpl; lia].
  destruct (batch !! currentIndex p); intros [= <- <-]; simpl; lia.
Qed.

Lemma sum_weight_insert (ws : list (worker (any:=any))) w st st' :
  ws !! w = Some st →
  sum_list (weight <$> <[w := st']> ws) + weight st
  = sum_list (weight <$> ws) + weight st'.
Proof.
  revert w. induction ws as [|a ws IH]; intros [|w] Hw; simplify_eq/=.
  - lia.
  - specialize (IH _ Hw). lia.
Qed.

Lemma sum_weight_snoc (ws : list (worker (any:=any))) st :
  sum_list (weight <$> ws ++ [st]) = sum_list (weight <$> ws) + weight st.
Proof. induction ws as [|a ws IH]; csimpl; [lia|]. rewrite IH. lia. Qed.

Lemma weight_le_sum (ws : list (worker (any:=any))) w st :
  ws !! w = Some st → weight st ≤ sum_list (weight <$> ws).
Proof.
  revert w. induction ws as [|a ws IH]; intros [|w] Hw; simplify_eq/=.
  - lia.
  - specialize (IH _ Hw). lia.
Qed.

Lemma start_worker_remaining (p : pool) :
  remaining batch (start_worker batch p) ≤ remaining batch p.
Proof.
  unfold start_worker, remaining.
  destruct (loop_head batch (length (workers p)) p) as [p' st] eqn:Hlh.
  pose proof (loop_head_workers _ _ _ _ Hlh) as Hws.
  apply loop_head_remaining in Hlh. simpl.
  rewrite Hws, sum_weight_snoc. lia.
Qed.

Lemma resume_remaining (p : pool) w st :
  workers p !! w = Some st → suspended st = true →
  remaining batch (resume_ w p) < remaining batch p.
Proof.
  intros Hw Hs. unfold resume, remaining. rewrite Hw.
  destruct st as [i ex|i ex r| |e]; try done.
  - destruct (call_run _ _ _); simpl.
    + pose proof (sum_weight_insert _ _ _ (AwaitMetric i ex a) Hw).
      simpl in *. lia.
    + pose proof (sum_weight_insert _ _ _ (Failed e) Hw). simpl in *. lia.
  - destruct (loop_head batch w _) as [p' st] eqn:Hlh.
    pose proof (loop_head_workers _ _ _ _ Hlh) as Hws.
    apply loop_head_remaining in Hlh. simpl in *.
    rewrite Hws.
    pose proof (sum_weight_insert _ _ _ st Hw). simpl in *. lia.
Qed.

Lemma elem_of_pending (ws : list (worker (any:=any))) w :
  w ∈ pending ws ↔ ∃ st, ws !! w = Some st ∧ suspended st = true.
Proof.
  unfold pending. rewrite list_elem_of_filter, elem_of_seq. split.
  - intros [Hs _]. destruct (ws !! w) as [st|]; simpl in Hs; [|done].
    exists st. split; [done|]. by apply Is_true_true.
  - intros (st & Hw & Hs). rewrite Hw. simpl. split.
    + by apply Is_true_true.
    + apply lookup_lt_Some in Hw. lia.
Qed.

Lemma pending_nil_weight (ws : list (worker (any:=any))) :
  sum_list (weight <$> ws) = 0 → pending ws = [].
Proof.
  intros Hsum. apply elem_of_nil_inv. intros w Hw.
  apply elem_of_pending in Hw as (st & Hw & Hs).
  apply weight_le_sum in Hw. destruct st; simpl in *; done || lia.
Qed.

Lemma picked_is_pending (l : list nat) w0 k :
  nth (k mod S (length l)) (w0 :: l) w0 ∈ w0 :: l.
Proof.
  apply list_elem_of_In, nth_In. cbn [length].
  apply Nat.mod_upper_bound. lia.
Qed.

Lemma run_pool_quiescent sched fuel : ∀ t (p : pool),
  remaining batch p ≤ fuel →
  pending (workers (run_pool_ sched fuel t p)) = [].
Proof.
  induction fuel as [|fuel IH]; intros t p Hrem.
  - simpl. apply pending_nil_weight. unfold remaining in Hrem. lia.
  - cbn [run_pool]. destruct (pending (workers p)) as [|w0 ws] eqn:Hp.
    + done.
    + apply IH.
      pose proof (picked_is_pending ws w0 (sched t)) as Hin.
      set (w := nth _ _ _) in *. rewrite <- Hp in Hin.
      apply elem_of_pending in Hin as (st & Hw & Hs).
      pose proof (resume_remaining _ _ _ Hw Hs). lia.
Qed.

Lemma run_pool_length sched fuel : ∀ t (p : pool),
  length (workers (run_pool_ sched fuel t p)) = length (workers p).
Proof.
  induction fuel as [|fuel IH]; intros t p; [done|].
  cbn [run_pool]. destruct (pending (workers p)) as [|w0 ws]; [done|].
  by rewrite IH, resume_length.
Qed.

Lemma start_workers_length numWorkers :
  length (workers (start_workers (number:=number) batch numWorkers))
  = numWorkers.
Proof.
  induction numWorkers as [|k IH]; [done|].
  unfold start_workers in *. rewrite Nat.iter_succ.
  by rewrite start_worker_length, IH.
Qed.

Lemma start_workers_remaining numWorkers :
  remaining batch (start_workers (number:=number) batch numWorkers)
  ≤ 2 * length batch.
Proof.
  induction numWorkers as [|k IH].
  - unfold remaining. simpl. lia.
  - unfold start_workers in *. rewrite Nat.iter_succ.
    etrans; [apply start_worker_remaining|done].
Qed.

Lemma pool_inv_start_workers numWorkers :
  inv (view (start_workers (number:=number) batch numWorkers))
    (start_workers (number:=number) batch numWorkers).
Proof.
  induction numWorkers as [|k IH]; [apply pool_inv_initial|].
  unfold start_workers in *. rewrite Nat.iter_succ.
  by apply pool_inv_start_worker.
Qed.

(** The pool always comes to rest within [enough_fuel] resumptions,
    whatever the interleaving and whatever the rollouts do. *)
Lemma final_pool_quiescent numWorkers sched :
  pending (workers (final_pool zero show_number m h batch capture_traces mf
                      mapper numWorkers sched)) = [].
Proof.
  unfold final_pool. apply run_pool_quiescent. apply start_workers_remaining.
Qed.

Lemma final_pool_length numWorkers sched :
  length (workers (final_pool zero show_number m h batch capture_traces mf
                     mapper numWorkers sched)) = numWorkers.
Proof.
  unfold final_pool. by rewrite run_pool_length, start_workers_length.
Qed.

(** ** The shape of the pool, with or without rejections *)

Local Abbreviation shape := (pool_shape m h batch mapper).

Lemma loop_head_shape (p p' : pool) w st :
  loop_head batch w p = (p', st) →
  pool_outputs p' = pool_outputs p ∧ pool_scores p' = pool_scores p ∧
  pool_trajectories p' = pool_trajectories p ∧ rejection p' = rejection p ∧
  match st with
  | AwaitRun i ex | AwaitMetric i ex _ => batch !! i = Some ex
  | Finished | Failed _ => True
  end.
Proof.
  unfold loop_head. case_decide; [|by intros [= <- <-]].
  destruct (batch !! currentIndex p) eqn:Hex; by intros [= <- <-].
Qed.

Lemma pool_shape_initial : shape (initial_pool (number:=number) batch).
Proof.
  constructor; simpl.
  - by rewrite !length_replicate.
  - intros w st Hw. by rewrite lookup_nil in Hw.
  - done.
Qed.

Lemma pool_shape_start_worker (p : pool) :
  shape p → shape (start_worker batch p).
Proof.
  intros [Hl Hheld Hrej]. unfold start_worker.
  destruct (loop_head batch (length (workers p)) p) as [p' st] eqn:Hlh.
  pose proof (loop_head_workers _ _ _ _ Hlh) as Hws.
  destruct (loop_head_shape _ _ _ _ Hlh) as (Ho & Hs & Ht & Hr & Hst).
  constructor; simpl.
  - by rewrite Ho, Hs, Ht.
  - intros w' st'. rewrite Hws. intros Hw'.
    apply lookup_snoc_Some in Hw' as [[_ Hw']|[_ <-]]; [by eapply Hheld|done].
  - by rewrite Hr.
Qed.

Lemma pool_shape_resume (p : pool) w : shape p → shape (resume_ w p).
Proof.
  intros [(Hlo & Hls & Hlt) Hheld Hrej]. unfold resume.
  destruct (workers p !! w) as [[i ex|i ex r| |e]|] eqn:Hw; try done.
  - pose proof (Hheld _ _ Hw) as Hex. simpl in Hex.
    destruct (call_run m h (inputs_of mapper ex)) as [r|e] eqn:Hrun.
    + constructor; simpl; [done| |done]. intros w' st' Hw'.
      apply list_lookup_insert_Some in Hw' as [(_ & <- & _)|[_ Hw']];
        [done|by eapply Hheld].
    + constructor; simpl; [done| |].
      * intros w' st' Hw'.
        apply list_lookup_insert_Some in Hw' as [(_ & <- & _)|[_ Hw']];
          [done|by eapply Hheld].
      * intros e'. destruct (rejection p) as [e0|] eqn:Hr.
        -- intros [= <-]. by apply Hrej.
        -- intros [= <-]. exists ex. split; [|done].
           by eapply list_elem_of_lookup_2.
  - pose proof (Hheld _ _ Hw) as Hex. simpl in Hex.
    assert (i < length batch) as Hi by by eapply lookup_lt_Some.
    destruct (loop_head batch w _) as [p' st] eqn:Hlh.
    pose proof (loop_head_workers _ _ _ _ Hlh) as Hws.
    destruct (loop_head_shape _ _ _ _ Hlh) as (Ho & Hs & Ht & Hr & Hst).
    simpl in *. constructor; simpl.
    + rewrite Ho, Hs, Ht, !array_set_length by lia.
      destruct capture_traces; rewrite ?array_set_length by lia; done.
    + intros w' st'. rewrite Hws. intros Hw'.
      apply list_lookup_insert_Some in Hw' as [(_ & <- & _)|[_ Hw']];
        [done|by eapply Hheld].
    + by rewrite Hr.
Qed.

Lemma final_pool_shape numWorkers sched :
  shape (final_pool zero show_number m h batch capture_traces mf mapper
           numWorkers sched).
Proof.
  unfold final_pool.
  assert (∀ fuel t (p : pool), shape p → shape (run_pool_ sched fuel t p))
    as Hrun.
  { induction fuel as [|fuel IH]; intros t p Hp; [done|].
    cbn [run_pool]. destruct (pending (workers p)) as [|w0 ws]; [done|].
    by apply IH, pool_shape_resume. }
  apply Hrun. induction numWorkers as [|k IH]; [apply pool_shape_initial|].
  unfold start_workers in *. rewrite Nat.iter_succ.
  by apply pool_shape_start_worker.
Qed.

(** [evaluate] returns a report of the right lengths or rejects with the
    rejection of a rollout. *)
Lemma settle_shape numWorkers sched :
  match settle capture_traces
          (final_pool zero show_number m h batch capture_traces mf mapper
             numWorkers sched) with
  | Returned report =>
      length (outputs report) = length batch ∧
      length (scores report) = length batch ∧
      (capture_traces = false → trajectories report = []) ∧
      (capture_traces = true → length (trajectories report) = length batch)
  | Threw e => ∃ ex, ex ∈ batch ∧ call_run m h (inputs_of mapper ex) = Threw e
  end.
Proof.
  destruct (final_pool_shape numWorkers sched) as [(Hlo & Hls & Hlt) _ Hrej].
  unfold settle. destruct (rejection _) as [e|]; [by apply Hrej|].
  simpl. split_and!; try done; by intros ->.
Qed.

(** ** Only the workers of the pool claim *)

Lemma loop_head_claims (p p' : pool) w st x :
  loop_head batch w p = (p', st) → x ∈ claims p' → x ∈ claims p ∨ x.1 = w.
Proof.
  unfold loop_head. case_decide; [|intros [= <- <-]; by left].
  destruct (batch !! currentIndex p); intros [= <- <-]; [|by left].
  unfold claims. simpl. rewrite omap_app, elem_of_app. simpl.
  rewrite list_elem_of_singleton. intros [?| ->]; [by left|by right].
Qed.

Lemma resume_claims_bounded (p : pool) w :
  (∀ x, x ∈ claims p → x.1 < length (workers p)) →
  ∀ x, x ∈ claims (resume_ w p) → x.1 < length (workers (resume_ w p)).
Proof.
  intros Hb x. rewrite resume_length. unfold resume.
  destruct (workers p !! w) as [[i ex|i ex r| |e]|] eqn:Hw; try apply Hb.
  - destruct (call_run _ _ _); apply Hb.
  - destruct (loop_head batch w _) as [p' st] eqn:Hlh.
    intros Hx. change (x ∈ claims p') in Hx.
    eapply loop_head_claims in Hx as [Hx| ->]; [| |done].
    + rewrite claims_record in Hx. by apply Hb.
    + by eapply lookup_lt_Some.
Qed.

Lemma start_worker_claims_bounded (p : pool) :
  (∀ x, x ∈ claims p → x.1 < length (workers p)) →
  ∀ x, x ∈ claims (start_worker batch p) →
       x.1 < length (workers (start_worker batch p)).
Proof.
  intros Hb x. rewrite start_worker_length. unfold start_worker.
  destruct (loop_head batch (length (workers p)) p) as [p' st] eqn:Hlh.
  intros Hx. change (x ∈ claims p') in Hx.
  eapply loop_head_claims in Hx as [Hx| ->]; [| |done]; [|simpl; lia].
  apply Hb in Hx. lia.
Qed.

Lemma final_pool_claims_bounded numWorkers sched x :
  x ∈ claims (final_pool zero show_number m h batch capture_traces mf mapper
                numWorkers sched) →
  x.1 < numWorkers.
Proof.
  rewrite <- (final_pool_length numWorkers sched) at 2. revert x.
  unfold final_pool.
  assert (∀ fuel t (p : pool),
    (∀ x, x ∈ claims p → x.1 < length (workers p)) →
    ∀ x, x ∈ claims (run_pool_ sched fuel t p) →
         x.1 < length (workers (run_pool_ sched fuel t p))) as Hrun.
  { induction fuel as [|fuel IH]; intros t p Hb; [done|].
    cbn [run_pool]. destruct (pending (workers p)) as [|w0 ws]; [done|].
    by apply IH, resume_claims_bounded. }
  apply Hrun. generalize numWorkers as k.
  induction k as [|k IH].
  - intros x Hx. by apply elem_of_nil in Hx.
  - unfold start_workers in *. rewrite Nat.iter_succ.
    by apply start_worker_claims_bounded.
Qed.

(** One resumption, whichever worker the event loop picks. *)
Lemma pool_inv_resume (p : pool) w :
  inv (view p) p → inv (view (resume_ w p)) (resume_ w p).
Proof.
  intros Hinv. unfold resume.
  destruct (workers p !! w) as [[i ex|i ex r| |e]|] eqn:Hw; try done.
  - destruct (call_run m h (inputs_of mapper ex)) as [r|e] eqn:Hrun.
    + apply (pool_inv_workers _ _ (<[w := AwaitMetric i ex r]> (workers p))).
      eapply pool_inv_ext;
        [|exact (pool_inv_run_returned _ _ w i ex r Hinv Hw Hrun)].
      intros w'. simpl. symmetry. apply view_insert.
      by eapply lookup_lt_Some.
    + eapply pool_inv_ext; [|exact (pool_inv_run_threw _ _ w i ex e Hinv Hw)].
      intros w'. simpl. symmetry. apply view_insert.
      by eapply lookup_lt_Some.
  - destruct (loop_head batch w _) as [p' st] eqn:Hlh.
    pose proof (loop_head_workers _ _ _ _ Hlh) as Hws. simpl in Hws.
    pose proof (pool_inv_record _ _ _ _ _ _ Hinv Hw) as Hrec.
    eapply pool_inv_loop_head in Hlh; [|exact Hrec|].
    2:{ unfold view_set. by rewrite decide_True. }
    apply (pool_inv_workers _ _ (<[w := st]> (workers p'))).
    eapply pool_inv_ext; [|exact Hlh].
    intros w'. simpl. rewrite Hws, view_insert by by eapply lookup_lt_Some.
    unfold view_set. by case_decide.
Qed.

Lemma run_pool_inv sched fuel : ∀ t (p : pool),
  inv (view p) p →
  inv (view (run_pool_ sched fuel t p)) (run_pool_ sched fuel t p).
Proof.
  induction fuel as [|fuel IH]; intros t p Hinv; [done|].
  cbn [run_pool]. destruct (pending (workers p)) as [|w0 ws]; [done|].
  by apply IH, pool_inv_resume.
Qed.

Lemma final_pool_inv numWorkers sched :
  let q := final_pool zero show_number m h batch capture_traces mf mapper
             numWorkers sched in
  inv (view q) q.
Proof. apply run_pool_inv, pool_inv_start_workers. Qed.

(** At rest, with at least one worker, every index has been written. *)
Lemma quiescent_complete (q : pool) :
  inv (view q) q → pending (workers q) = [] → 0 < length (workers q) →
  rejection q = None →
  currentIndex q = length batch ∧
  (claims q).*2 = seq 0 (length batch) ∧
  (∀ x, x ∈ claims q → x ∈ processed q) ∧
  ∀ i ex, batch !! i = Some ex →
    ∃ r, call_run m h (inputs_of mapper ex) = Returned r ∧ written_ q i ex r.
Proof.
  intros Hinv Hq Hlen Hrej.
  pose proof Hinv as [Hc Hl Hcl Hr Hm Hcd [Hnd Hsub] Hw Hh Hf Hfl].
  assert (∀ w e, workers q !! w ≠ Some (Failed e)) as Hnf.
  { intros w e Hx. apply Hfl in Hx as [e' Hx]. congruence. }
  assert (∀ w st, workers q !! w = Some st → suspended st = false) as Hrest.
  { intros w st Hws. destruct (suspended st) eqn:Hs; [|done].
    assert (w ∈ pending (workers q)) as Hin
      by (apply elem_of_pending; eauto).
    rewrite Hq in Hin. by apply elem_of_nil in Hin. }
  assert (currentIndex q = length batch) as Hend.
  { destruct (lookup_lt_is_Some_2 (workers q) 0 Hlen) as [st Hst].
    pose proof (Hrest _ _ Hst) as Hs.
    destruct st as [| | |e]; try done; [by eapply Hf|by destruct (Hnf 0 e)]. }
  assert (∀ x, x ∈ claims q → x ∈ processed q) as Hall.
  { intros [w i] Hin.
    destruct (Hcd _ _ Hin) as [?|[[ex' Hx]|[(ex' & r' & Hx)|[e' Hx]]]];
      [done| | |by destruct (Hnf w e')]; by apply Hrest in Hx. }
  split_and!; [done|by rewrite Hcl, Hend|done|].
  intros i ex Hex.
  assert (i ∈ (claims q).*2) as Hi.
  { rewrite Hcl, Hend. apply elem_of_seq. apply lookup_lt_Some in Hex. lia. }
  apply list_elem_of_fmap in Hi as [[w i'] [Heq Hi]]. simpl in Heq. subst i'.
  apply Hall in Hi.
  destruct (Hw i) as (ex' & r & Hex' & Hrun & Hwr).
  { apply list_elem_of_fmap. by exists (w, i). }
  rewrite Hex in Hex'. injection Hex' as <-. eauto.
Qed.

(** ** What [evaluate] returns *)

(** Without a rejection and with at least one worker, every index is
    claimed once and written by the worker that claimed it. *)
Lemma final_pool_complete numWorkers sched :
  0 < numWorkers →
  let q := final_pool zero show_number m h batch capture_traces mf mapper
             numWorkers sched in
  rejection q = None →
  currentIndex q = length batch ∧
  (claims q).*2 = seq 0 (length batch) ∧
  (∀ x, x ∈ claims q → x ∈ processed q) ∧
  ∀ i ex, batch !! i = Some ex →
    ∃ r, call_run m h (inputs_of mapper ex) = Returned r ∧ written_ q i ex r.
Proof.
  intros HC q Hrej.
  pose proof (final_pool_inv numWorkers sched) as Hinv. fold q in Hinv.
  apply (quiescent_complete q Hinv); [|by unfold q; rewrite final_pool_length|done].
  apply final_pool_quiescent.
Qed.

(** What every run of the pool keeps, rejections or not: no index is
    claimed twice, only claimed pairs are processed, and none twice. *)
Lemma final_pool_safe numWorkers sched :
  let q := final_pool zero show_number m h batch capture_traces mf mapper
             numWorkers sched in
  currentIndex q ≤ length batch ∧
  (claims q).*2 = seq 0 (currentIndex q) ∧
  NoDup (processed q) ∧ (∀ x, x ∈ processed q → x ∈ claims q).
Proof.
  intros q.
  destruct (final_pool_inv numWorkers sched) as [? _ ? _ _ _ [? ?] _ _ _ _].
  done.
Qed.

(** A report the pool returns is the sequential report. *)
Lemma final_pool_returns_sequential numWorkers sched :
  0 < numWorkers ∨ batch = [] →
  ∀ report,
    settle capture_traces
      (final_pool zero show_number m h batch capture_traces mf mapper
         numWorkers sched) = Returned report →
    report
    = sequential_report zero show_number m h batch capture_traces mf mapper ∧
    rollouts_return m h batch mapper.
Proof.
  intros HC report.
  destruct (final_pool_shape numWorkers sched) as [(Hlo & Hls & Hlt) _ _].
  pose proof (final_pool_complete numWorkers sched) as Hcomplete.
  unfold settle.
  set (q := final_pool _ _ _ _ _ _ _ _ _ _) in *.
  destruct (rejection q) as [e|] eqn:Hrej; [done|]. intros [= <-].
  assert (∀ i ex, batch !! i = Some ex →
    ∃ r, call_run m h (inputs_of mapper ex) = Returned r ∧ written_ q i ex r)
    as Hwr.
  { destruct HC as [HC| ->].
    - by apply (Hcomplete HC).
    - intros i ex Hi. by rewrite lookup_nil in Hi. }
  split.
  - unfold sequential_report. f_equal.
    + apply list_eq. intros i. rewrite list_lookup_fmap.
      destruct (batch !! i) as [ex|] eqn:Hex; simpl.
      * destruct (Hwr _ _ Hex) as (r & Hrun & Ho & _).
        unfold sequential_output. by rewrite Hrun.
      * apply lookup_ge_None_2. apply lookup_ge_None_1 in Hex. lia.
    + apply list_eq. intros i. rewrite list_lookup_fmap.
      destruct (batch !! i) as [ex|] eqn:Hex; simpl.
      * destruct (Hwr _ _ Hex) as (r & Hrun & _ & Hs & _).
        unfold sequential_score. by rewrite Hrun.
      * apply lookup_ge_None_2. apply lookup_ge_None_1 in Hex. lia.
    + destruct capture_traces eqn:Hcap; [|done].
      apply list_eq. intros i. rewrite list_lookup_imap.
      destruct (batch !! i) as [ex|] eqn:Hex; simpl.
      * destruct (Hwr _ _ Hex) as (r & Hrun & _ & _ & Ht).
        unfold sequential_trajectory. by rewrite Hrun.
      * apply lookup_ge_None_2. apply lookup_ge_None_1 in Hex. lia.
  - apply Forall_lookup. intros i ex Hex.
    destruct (Hwr _ _ Hex) as (r & -> & _). done.
Qed.

Section RolloutsReturn.

Hypothesis rollouts : rollouts_return m h batch mapper.

Lemma final_pool_settles numWorkers sched :
  let q := final_pool zero show_number m h batch capture_traces mf mapper
             numWorkers sched in
  rejection q = None ∧
  settle capture_traces q
  = Returned (mkBatch (pool_outputs q) (pool_scores q)
                (if capture_traces then pool_trajectories q else [])).
Proof.
  intros q.
  destruct (final_pool_shape numWorkers sched) as [_ _ Hrej]. fold q in Hrej.
  assert (rejection q = None) as Hnone.
  { destruct (rejection q) as [e|]; [|done].
    destruct (Hrej e eq_refl) as (ex & Hex & Hrun).
    pose proof (proj1 (Forall_forall _ _) rollouts _ Hex) as Hret.
    simpl in Hret. by rewrite Hrun in Hret. }
  split; [done|]. unfold settle. by rewrite Hnone.
Qed.

(** With the hypothesis that no rollout rejects, the pool returns the
    sequential report. *)
Lemma final_pool_sequential numWorkers sched :
  0 < numWorkers ∨ batch = [] →
  settle capture_traces
    (final_pool zero show_number m h batch capture_traces mf mapper
       numWorkers sched)
  = Returned
      (sequential_report zero show_number m h batch capture_traces mf mapper).
Proof.
  intros HC. destruct (final_pool_settles numWorkers sched) as (Hrej & Hs).
  rewrite Hs. f_equal.
  by destruct (final_pool_returns_sequential numWorkers sched HC _ Hs).
Qed.

End RolloutsReturn.

End PoolProperties.

(** * Applying a candidate *)

Section CandidateProperties.

Context {any : Type}.
Implicit Types (m : Module (any:=any)) (h : Heap) (l : loc).
Implicit Types (candidate : list (string * string)).

(** An entry whose name is no member of the module, or names a method or
    the forward closure, is skipped. *)
Lemma update_prompt_skips m h name text :
  (∀ l, this_get m name ≠ MObject l) → update_prompt m h (name, text) = h.
Proof.
  intros Hn. unfold update_prompt. simpl.
  destruct (this_get m name) as [| |l]; [done|done|by destruct (Hn l)].
Qed.

(** The store after [evaluate] has applied a candidate, object by
    object. *)
Lemma update_candidate_prompts_lookup m h candidate l :
  update_candidate_prompts m h candidate !! l
  = match last_prompt m candidate l with
    | Some text => <["instructions" := VString text]> <$> h !! l
    | None => h !! l
    end.
Proof.
  unfold update_candidate_prompts, last_prompt.
  induction candidate as [|[name text] candidate IH] using rev_ind; [done|].
  rewrite foldl_snoc, filter_app, last_app, filter_singleton by exact [].
  simpl. unfold update_prompt at 1. simpl.
  destruct (this_get m name) as [| |l'] eqn:Hget.
  - by rewrite decide_False.
  - by rewrite decide_False.
  - destruct (decide (l' = l)) as [->|Hne].
    + rewrite decide_True by done. simpl. unfold set_prop.
      rewrite lookup_alter_eq, IH.
      destruct (last _) as [[? text']|]; simpl; [|done].
      destruct (h !! l); simpl; [|done]. by rewrite insert_insert_eq.
    + rewrite decide_False by congruence. unfold set_prop.
      by rewrite lookup_alter_ne.
Qed.

(** Fields other than [instructions] are never touched. *)
Lemma update_candidate_prompts_frame m h candidate l k :
  k ≠ "instructions" →
  get_prop (update_candidate_prompts m h candidate) l k = get_prop h l k.
Proof.
  intros Hk. unfold get_prop. rewrite update_candidate_prompts_lookup.
  destruct (last_prompt m candidate l); [|done].
  destruct (h !! l); simpl; [|done]. by rewrite lookup_insert_ne.
Qed.

(** A predictor the candidate names ends with the candidate's text. *)
Lemma update_candidate_prompts_named m h candidate name text l :
  NoDup candidate.*1 → (name, text) ∈ candidate →
  name ≠ "_forward" → fields m !! name = Some l → is_Some (h !! l) →
  (∀ name' text', (name', text') ∈ candidate → name' ≠ name →
                  this_get m name' ≠ MObject l) →
  get_prop (update_candidate_prompts m h candidate) l "instructions"
  = Some (VString text).
Proof.
  intros Hnd Hin Hname Hfield [o Ho] Halias.
  assert (last_prompt m candidate l = Some text) as Hlast.
  { unfold last_prompt.
    assert (filter (λ entry, this_get m entry.1 = MObject l) candidate
            = [(name, text)]) as ->; [|done].
    clear Ho. induction candidate as [|[name' text'] candidate IH].
    - by apply elem_of_nil in Hin.
    - simpl in Hnd. apply NoDup_cons in Hnd as [Hfresh Hnd].
      apply elem_of_cons in Hin as [[= <- <-]|Hin].
      + rewrite filter_cons_True.
        2:{ simpl. unfold this_get. rewrite decide_False by done.
            by rewrite Hfield. }
        f_equal. apply elem_of_nil_inv. intros [name' text'] Hx.
        apply list_elem_of_filter in Hx as [Hx Hx']. simpl in Hx.
        destruct (Halias name' text'); [by right| |done].
        intros ->. apply Hfresh. apply list_elem_of_fmap.
        by exists (name, text').
      + rewrite filter_cons_False.
        * apply IH; [done|done|]. intros n t ??.
          apply (Halias n t); [by right|done].
        * simpl. apply (Halias name' text'); [by left|]. intros ->.
          apply Hfresh.
          apply list_elem_of_fmap. by exists (name, text). }
  unfold get_prop. rewrite update_candidate_prompts_lookup, Hlast, Ho. simpl.
  by rewrite lookup_insert_eq.
Qed.

(** Applying the same candidate again changes nothing: a second
    [evaluate] of the same candidate starts from the store of the first. *)
Lemma update_candidate_prompts_idempotent m h candidate :
  update_candidate_prompts m (update_candidate_prompts m h candidate) candidate
  = update_candidate_prompts m h candidate.
Proof.
  apply map_eq. intros l. rewrite !update_candidate_prompts_lookup.
  destruct (last_prompt m candidate l); [|done].
  destruct (h !! l); simpl; [|done]. by rewrite insert_insert_eq.
Qed.

(** On a record that holds predictor objects only, the callback of
    [compile] runs through. *)
Lemma update_student_runs_through m candidate : ∀ h,
  record_of_predictors m h → (update_student m h candidate).2 = None.
Proof.
  unfold update_student.
  induction candidate as [|[name text] candidate IH]; intros h Hrec; [done|].
  simpl. unfold update_student_prompt at 2. simpl.
  destruct (get_prop h (predictors_of m) name) as [[s|l]|] eqn:Hget.
  - destruct (Hrec _ _ Hget) as (l & [=] & _).
  - apply IH. intros k v. unfold get_prop, set_prop.
    destruct (Hrec _ _ Hget) as (l' & [= <-] & Hne).
    rewrite lookup_alter_ne by done. apply Hrec.
  - by apply IH.
Qed.

(** Where no candidate entry names a member that is an object without
    being a predictor of the record, [evaluate] and [compile] apply a
    candidate alike. *)
Lemma update_paths_agree m candidate : ∀ h,
  record_of_predictors m h →
  (∀ name text l, (name, text) ∈ candidate →
     this_get m name = MObject l ↔
     get_prop h (predictors_of m) name = Some (VObject l)) →
  update_student m h candidate = (update_candidate_prompts m h candidate, None).
Proof.
  unfold update_student, update_candidate_prompts.
  induction candidate as [|[name text] candidate IH]; intros h Hrec Hsame;
    [done|].
  simpl. unfold update_student_prompt at 2, update_prompt at 2. simpl.
  destruct (get_prop h (predictors_of m) name) as [[s|l]|] eqn:Hget.
  - destruct (Hrec _ _ Hget) as (l & [=] & _).
  - rewrite (proj2 (Hsame name text l ltac:(by left)) Hget).
    destruct (Hrec _ _ Hget) as (l' & [= <-] & Hne).
    assert (∀ k, get_prop (set_prop h l "instructions" (VString text))
                   (predictors_of m) k = get_prop h (predictors_of m) k)
      as Hkeep.
    { intros k. unfold get_prop, set_prop. by rewrite lookup_alter_ne. }
    apply IH.
    + intros k v. rewrite Hkeep. apply Hrec.
    + intros name' text' l' Hin. rewrite Hkeep. apply (Hsame name' text' l').
      by right.
  - destruct (this_get m name) as [| |l] eqn:Hthis.
    + apply IH; [done|]. intros name' text' l' Hin.
      apply (Hsame name' text' l'). by right.
    + apply IH; [done|]. intros name' text' l' Hin.
      apply (Hsame name' text' l'). by right.
    + rewrite (proj1 (Hsame name text l ltac:(by left)) Hthis) in Hget.
      done.
Qed.

End CandidateProperties.

(** * [Module.evaluate] *)

Section EvaluateProperties.

Context {any number : Type} (zero : number) (show_number : number → string).
Implicit Types (m : Module (any:=any)) (h : Heap).
Implicit Types (batch : list (gmap string any)).
Implicit Types (mf : MetricFunction (any:=any) (number:=number)).
Implicit Types (mapper : option (gmap string any → gmap string any)).

(** C1.  Whatever the batch, the candidate, the number of workers (so in
    particular every concurrency of at least 1) and the interleaving: a
    report returned by [evaluate] has [outputs] and [scores] as long as the
    batch, and [trajectories] empty when [capture_traces] is false and as
    long as the batch when it is true; [evaluate] returns such a report
    whenever no rollout of the batch rejects, and if it rejects, it
    rejects with the rejection of a rollout of the batch. *)
Theorem evaluate_report_lengths m h batch candidate capture_traces numWorkers
    mf mapper sched :
  let h' := update_candidate_prompts m h candidate in
  let outcome :=
    (evaluate zero show_number m h batch candidate capture_traces numWorkers
       mf mapper sched).2 in
  (∀ report, outcome = Returned report →
     length (outputs report) = length batch ∧
     length (scores report) = length batch ∧
     (capture_traces = false → trajectories report = []) ∧
     (capture_traces = true → length (trajectories report) = length batch)) ∧
  (rollouts_return m h' batch mapper → ∃ report, outcome = Returned report) ∧
  (∀ e, outcome = Threw e →
     ∃ ex, ex ∈ batch ∧ call_run m h' (inputs_of mapper ex) = Threw e).
Proof.
  intros h' outcome. unfold outcome, evaluate. simpl. fold h'.
  pose proof (settle_shape zero show_number m h' batch capture_traces mf
                mapper numWorkers sched) as Hshape.
  split_and!.
  - intros report Hr. by rewrite Hr in Hshape.
  - intros Hroll.
    destruct (final_pool_settles zero show_number _ _ _ capture_traces mf _
                Hroll numWorkers sched) as (_ & Hs).
    eauto.
  - intros e He. by rewrite He in Hshape.
Qed.

(** C3.  In the worker pool, for every batch, every number of workers
    and every interleaving, the pool comes to rest, and at rest: the
    indices claimed are 0, 1, ... up to the cursor, each claimed once, by a
    worker of the pool; the (worker, index) pairs processed are pairs
    claimed, none processed twice; so no two workers ever claim or process
    the same index.  With at least one worker and no rollout rejecting, the
    cursor is exhausted, the pairs processed are all the pairs claimed, and
    every index of the batch is claimed and processed by one and the same
    worker and by no other: no index is skipped. *)
Theorem each_index_claimed_once m h batch capture_traces numWorkers mf mapper
    sched :
  let q := final_pool zero show_number m h batch capture_traces mf mapper
             numWorkers sched in
  (pending (workers q) = [] ∧
   currentIndex q ≤ length batch ∧
   (claims q).*2 = seq 0 (currentIndex q) ∧
   NoDup (processed q) ∧
   (∀ w i, (w, i) ∈ processed q → (w, i) ∈ claims q) ∧
   (∀ w i, (w, i) ∈ claims q → w < numWorkers) ∧
   (∀ w w' i, (w, i) ∈ claims q → (w', i) ∈ claims q → w = w')) ∧
  (0 < numWorkers → rollouts_return m h batch mapper →
   currentIndex q = length batch ∧
   processed q ≡ₚ claims q ∧
   ∀ i, i < length batch →
     ∃ w, w < numWorkers ∧ (w, i) ∈ claims q ∧ (w, i) ∈ processed q ∧
          ∀ w', (w', i) ∈ claims q ∨ (w', i) ∈ processed q → w' = w).
Proof.
  intros q.
  destruct (final_pool_safe zero show_number m h batch capture_traces mf
              mapper numWorkers sched) as (Hle & Hcl & Hnd & Hsub).
  fold q in Hle, Hcl, Hnd, Hsub.
  assert (∀ w i, (w, i) ∈ claims q → w < numWorkers) as Hbound.
  { intros w i Hin.
    by apply (final_pool_claims_bounded zero show_number m h batch
                capture_traces mf mapper numWorkers sched (w, i)). }
  assert (∀ w w' i, (w, i) ∈ claims q → (w', i) ∈ claims q → w = w') as Hone.
  { intros w w' i. apply snd_determines_fst. rewrite Hcl. apply NoDup_seq. }
  split.
  - split_and!; try done; [apply final_pool_quiescent|].
    intros w i. apply Hsub.
  - intros HC Hroll.
    destruct (final_pool_settles zero show_number _ _ _ capture_traces mf _
                Hroll numWorkers sched) as (Hrej & _).
    destruct (final_pool_complete zero show_number _ _ _ capture_traces mf _
                numWorkers sched HC Hrej) as (Hend & Hcl' & Hall & _).
    fold q in Hend, Hcl', Hall.
    assert (NoDup (claims q)) as Hndc.
    { apply (NoDup_fmap_1 snd). rewrite Hcl. apply NoDup_seq. }
    split_and!.
    + done.
    + apply NoDup_Permutation; [done|done|]. intros x. split; auto.
    + intros i Hi.
      assert (i ∈ (claims q).*2) as Hin.
      { rewrite Hcl'. apply elem_of_seq. lia. }
      apply list_elem_of_fmap in Hin as [[w i'] [Heq Hin]].
      simpl in Heq. subst i'. exists w. split_and!.
      * by eapply Hbound.
      * done.
      * by apply Hall.
      * intros w' Hw'.
        assert ((w', i) ∈ claims q) as Hc by (destruct Hw'; auto).
        by eapply Hone.
Qed.


(** C7.  For the same module, store, batch, candidate and metric,
    [evaluate] with one worker and [evaluate] with len(batch) workers (or
    any number of at least 1), under any two interleavings: if both return,
    they return the same report, the sequential report, whose slot [i] is
    computed from [batch[i]] alone; and when no rollout of the batch
    rejects both do return it, leave the same store, and the second returns
    it also when it is made after the first, on the store the first has
    left. *)
Theorem concurrency_independent m h batch candidate capture_traces numWorkers
    mf mapper sched1 sched2 :
  numWorkers = length batch ∨ 0 < numWorkers →
  let h' := update_candidate_prompts m h candidate in
  let one := evaluate zero show_number m h batch candidate capture_traces 1
               mf mapper sched1 in
  let many := evaluate zero show_number m h batch candidate capture_traces
                numWorkers mf mapper sched2 in
  let after := evaluate zero show_number m one.1 batch candidate
                 capture_traces numWorkers mf mapper sched2 in
  (∀ report1 report2,
     one.2 = Returned report1 → many.2 = Returned report2 →
     outputs report1 = outputs report2 ∧ scores report1 = scores report2 ∧
     report1 = report2 ∧
     ∀ i ex, batch !! i = Some ex →
       outputs report1 !! i = Some (sequential_output m h' mapper ex) ∧
       scores report1 !! i
       = Some (sequential_score zero show_number m h' mf mapper ex)) ∧
  (rollouts_return m h' batch mapper →
   ∃ report,
     one.2 = Returned report ∧ many.2 = Returned report ∧
     after.2 = Returned report ∧ one.1 = many.1 ∧ one.1 = after.1 ∧
     report
     = sequential_report zero show_number m h' batch capture_traces mf
         mapper).
Proof.
  intros HC h' one many after. unfold one, many, after, evaluate. simpl.
  rewrite update_candidate_prompts_idempotent. fold h'.
  assert (0 < numWorkers ∨ batch = []) as HC'.
  { destruct HC as [->|?]; [|by left].
    destruct batch; [by right|left; simpl; lia]. }
  split.
  - intros report1 report2 H1 H2.
    destruct (final_pool_returns_sequential zero show_number m h' batch
                capture_traces mf mapper 1 sched1 (or_introl Nat.lt_0_1)
                report1 H1) as [-> _].
    destruct (final_pool_returns_sequential zero show_number m h' batch
                capture_traces mf mapper numWorkers sched2 HC' report2 H2)
      as [-> _].
    split_and!; try done.
    intros i ex Hi. unfold sequential_report. simpl.
    by rewrite !list_lookup_fmap, Hi.
  - intros Hroll. eexists. split_and!; try done.
    + apply (final_pool_sequential zero show_number _ _ _ capture_traces mf _
               Hroll 1 sched1). left. lia.
    + by apply (final_pool_sequential zero show_number _ _ _ capture_traces
                  mf _ Hroll numWorkers sched2).
    + by apply (final_pool_sequential zero show_number _ _ _ capture_traces
                  mf _ Hroll numWorkers sched2).
Qed.

End EvaluateProperties.

(** * [Module.run] *)

Section RunProperties.

Context {any : Type}.
Implicit Types (m : Module (any:=any)) (h : Heap) (x : gmap string any).

Lemma or_else_set v d : is_set (or_else v d).
Proof.
  unfold or_else, is_set. destruct (js_truthy v) eqn:Ht; [|done].
  split; intros ->; done.
Qed.

(** [run] turns every exception of forward logic that can be described
    (so not [null], [undefined] or a value whose reads throw) into a failure
    prediction that carries the exception's own name when it has one, and
    returns the trace as forward logic left it, on success and on failure
    alike. *)
Lemma run_catches m h x :
  (∀ e, (call_forward m h x []).2 = Threw e → describable e = true) →
  ∃ r, run m h x = Returned r ∧
       trace r = (call_forward m h x []).1 ∧
       match (call_forward m h x []).2 with
       | Returned out => prediction r = mkPrediction out JNull JNull JNull
       | Threw (ThrownValue name message stack str _) =>
           prediction r =
             mkPrediction Null (or_else name "Error") (or_else message str)
               (or_null stack)
       | Threw ThrownNullish | Threw (ThrownUnreadable _ _) => False
       end.
Proof.
  unfold run.
  destruct (call_forward m h x []) as [tr [out|[|n msg st str sc|x' sc]]];
    simpl; intros Hne; [eauto|by specialize (Hne _ eq_refl)|eauto|
                        by specialize (Hne _ eq_refl)].
Qed.

(** A rollout rejects only when [run] is shadowed or forward logic rejects
    with a value that cannot be described. *)
Lemma call_run_returns m h x :
  this_get m "run" = MFunction →
  (∀ e, (call_forward m h x []).2 = Threw e → describable e = true) →
  returned (call_run m h x) = true.
Proof.
  intros Hrun Hne. unfold call_run. rewrite Hrun.
  by destruct (run_catches m h x Hne) as (r & -> & _).
Qed.

(** C9 (amended).  A prediction returned by [run] is exactly one of two
    records, never both and never neither: the success record, whose
    [errorType], [errorMessage] and [errorTraceback] are all null and whose
    [output] is whatever forward logic returned, [null] and [undefined]
    included; or the failure record, whose [output] is null and whose
    [errorType] and [errorMessage] are set, built when forward logic
    threw. *)
Theorem prediction_is_success_or_failure_record m h x r :
  run m h x = Returned r →
  (success_record (prediction r) ∧ ¬ failure_record (prediction r) ∧
   (call_forward m h x []).2 = Returned (p_output (prediction r)))
  ∨ (failure_record (prediction r) ∧ ¬ success_record (prediction r) ∧
     ∃ e, (call_forward m h x []).2 = Threw e).
Proof.
  unfold run.
  destruct (call_forward m h x []) as [tr [out|[|n msg st str sc|x' sc]]];
    simpl; [intros [= <-]|done|intros [= <-]|done]; simpl.
  - left. split; [done|]. split; [|done]. by intros (_ & [? _] & _).
  - right. split; [|split].
    + unfold failure_record. simpl.
      split_and!; [done|apply or_else_set|apply or_else_set].
    + intros (Hnull & _). simpl in Hnull.
      by destruct (or_else_set n "Error") as [? _].
    + eauto.
Qed.

End RunProperties.

(** * The shim inside a rollout *)

Section ShimProperties.

Context {any : Type}.
Variable llm : list Message → completion string.
Implicit Types (h : Heap) (l : loc) (tr : list TraceEntry).

(** A model call that fails with a value that can be described leaves
    one trace entry carrying the failure, and rethrows it. *)
Lemma generateText_failure_recorded h l options tr msgs name message stack
    str status :
  prepareMessages (string_prop h l "instructions") options = Returned msgs →
  llm msgs = Threw (ThrownValue name message stack str status) →
  generateText llm h l options tr
  = (tr ++ [mkTraceEntry (string_prop h l "name") msgs ""
              (or_else name "Error") (or_else message str) (or_null stack)],
     Threw (ThrownValue name message stack str status)).
Proof. intros Hp Hl. unfold generateText. by rewrite Hp, Hl. Qed.

Lemma generateText_appends h l options tr :
  ∃ entries, (generateText llm h l options tr).1 = tr ++ entries.
Proof.
  unfold generateText.
  destruct (prepareMessages _ _) as [msgs|e]; simpl.
  - destruct (llm msgs) as [text|[|n msg st str sc|x sc]]; simpl; eauto;
      exists []; by rewrite app_nil_r.
  - exists []. by rewrite app_nil_r.
Qed.

(** Host logic only ever appends to the trace of its rollout: what was
    recorded before a failure is still there after it. *)
Lemma host_run_appends {A} predictors h (prog : Host A) : ∀ tr,
  ∃ entries, (host_run llm predictors h prog tr).1 = tr ++ entries.
Proof.
  induction prog as [a|e|name options k IH]; intros tr; simpl.
  - exists []. by rewrite app_nil_r.
  - exists []. by rewrite app_nil_r.
  - destruct (predictors !! name) as [l|]; [|apply IH].
    destruct (generateText_appends h l options tr) as [es1 Hes1].
    destruct (generateText llm h l options tr) as [tr' c]. simpl in Hes1.
    subst tr'. destruct (IH c (tr ++ es1)) as [es2 Hes2].
    exists (es1 ++ es2). by rewrite Hes2, app_assoc.
Qed.

End ShimProperties.

(** * The session *)

Section SessionProperties.

Context {any number : Type} (zero : number) (show_number : number → string).
Implicit Types (s : Session (any:=any) (number:=number)).
Implicit Types (ev : signal (any:=any)).

Local Abbreviation step_ := (step zero show_number).
Local Abbreviation handle_ := (handle zero show_number).

Lemma settle_compile_settled o s :
  compilePromise s ≠ Pending → settle_compile o s = s.
Proof. unfold settle_compile. by destruct (compilePromise s). Qed.

Lemma finalize_compilePromise best res s :
  compilePromise s ≠ Pending →
  compilePromise (finalize best res s) = compilePromise s.
Proof.
  intros Hs. unfold finalize.
  destruct (finalizeResolve (teleprompt s)) as [[]|]; [|done].
  destruct (optimizationPromise s); try done.
  unfold on_finalized. simpl.
  destruct (update_student _ _ _) as [h' [e|]]; [done|].
  by rewrite settle_compile_settled.
Qed.

(** Once [compile] has settled, no signal changes how. *)
Lemma step_settled s ev :
  compilePromise s ≠ Pending → compilePromise (step_ s ev) = compilePromise s.
Proof.
  intros Hs. destruct ev as [[batch cand cap|entries|best res] sched|err|code];
    simpl.
  - destruct (metric (teleprompt s)); [|done].
    destruct (this_get (student s) "evaluate"); try done;
      by destruct (evaluate _ _ _ _ _ _ _ _ _ _ _).
  - by destruct (metric (teleprompt s)).
  - by apply finalize_compilePromise.
  - unfold on_error. by rewrite settle_compile_settled.
  - unfold on_close. case_decide; [done|].
    by rewrite settle_compile_settled.
Qed.

Lemma steps_settled evs : ∀ s,
  compilePromise s ≠ Pending →
  compilePromise (foldl step_ s evs) = compilePromise s.
Proof.
  induction evs as [|ev evs IH]; intros s Hs; [done|]. simpl.
  rewrite IH; rewrite step_settled; done.
Qed.

(** Requests for evaluations and scores, and a process that exits with
    status 0, leave [compile] waiting. *)
Lemma step_quiet module s ev :
  awaiting module s → decisive ev = false → awaiting module (step_ s ev).
Proof.
  intros (Hst & Harm & Hopt & Hcomp) Hq.
  destruct ev as [[batch cand cap|entries|best res] sched|err|code];
    simpl in *; try done.
  - destruct (metric (teleprompt s)); [|done].
    destruct (this_get (student s) "evaluate"); try done;
      by destruct (evaluate _ _ _ _ _ _ _ _ _ _ _).
  - by destruct (metric (teleprompt s)).
  - unfold on_close. case_decide as Hc; [done|].
    by rewrite bool_decide_eq_false_2 in Hq.
Qed.

Lemma steps_quiet module evs : ∀ s,
  awaiting module s → Forall (λ ev, decisive ev = false) evs →
  awaiting module (foldl step_ s evs).
Proof.
  induction evs as [|ev evs IH]; intros s Hs Hq; [done|].
  apply Forall_cons in Hq as [Hev Hq]. simpl. apply IH; [|done].
  by apply step_quiet.
Qed.

(** Once the optimization promise is resolved, a finalize call changes
    nothing, and no signal unresolves it. *)
Lemma finalize_resolved best res s :
  optimizationPromise s ≠ Pending → finalize best res s = s.
Proof.
  intros Ho. unfold finalize.
  destruct (finalizeResolve (teleprompt s)) as [[]|]; [|done].
  by destruct (optimizationPromise s).
Qed.

Lemma step_resolved s ev :
  optimizationPromise s ≠ Pending →
  optimizationPromise (step_ s ev) = optimizationPromise s.
Proof.
  intros Ho. destruct ev as [[batch cand cap|entries|best res] sched|err|code];
    simpl.
  - destruct (metric (teleprompt s)); [|done].
    destruct (this_get (student s) "evaluate"); try done;
      by destruct (evaluate _ _ _ _ _ _ _ _ _ _ _).
  - by destruct (metric (teleprompt s)).
  - by rewrite finalize_resolved.
  - unfold on_error, settle_compile. by destruct (compilePromise s).
  - unfold on_close, settle_compile. case_decide; [done|].
    by destruct (compilePromise s).
Qed.

Lemma steps_resolved evs : ∀ s,
  optimizationPromise s ≠ Pending →
  optimizationPromise (foldl step_ s evs) = optimizationPromise s.
Proof.
  induction evs as [|ev evs IH]; intros s Hs; [done|]. simpl.
  rewrite IH; rewrite step_resolved; done.
Qed.

(** C2.  A [compile] call stays pending until the first signal that can
    settle it: a finalize request, a process error, or a process exit with
    a status other than 0.  If that signal is a finalize request, the
    student is updated with its [best_candidate] and, the update having
    run through, [compile] resolves; if it is a process failure, [compile]
    rejects with the failure.  Whatever follows (process events, further
    requests) does not change how [compile] settled, and any later
    finalize request changes nothing at all and is still answered
    [{status: "ok"}]. *)
Theorem compile_settles_once t module h mf ds pre ev post :
  Forall (λ e, decisive e = false) pre → decisive ev = true →
  let s1 := compile zero show_number t module h mf ds pre in
  let s2 := compile zero show_number t module h mf ds (pre ++ [ev]) in
  let s3 := compile zero show_number t module h mf ds (pre ++ ev :: post) in
  compilePromise s1 = Pending ∧
  match ev with
  | Http (PostFinalize best res) _ =>
      heap s2 = (update_student module (heap s1) best).1 ∧
      ((update_student module (heap s1) best).2 = None →
       compilePromise s2 = Fulfilled () ∧ compilePromise s3 = Fulfilled ()) ∧
      ∀ best' res' sched,
        handle_ sched s3 (PostFinalize best' res')
        = (s3, mkResponse 200 (StatusBody "ok"))
  | ProcessError err =>
      compilePromise s2 = Rejected err ∧ compilePromise s3 = Rejected err ∧
      heap s2 = heap s1
  | ProcessClose code =>
      let failure :=
        Error ("Optimization process failed with code " +:+ show_code code) in
      compilePromise s2 = Rejected failure ∧
      compilePromise s3 = Rejected failure ∧ heap s2 = heap s1
  | Http _ _ => True
  end.
Proof.
  intros Hpre Hev s1 s2 s3.
  assert (awaiting module s1) as (Hst & Harm & Hopt & Hcomp).
  { apply steps_quiet; [|done]. by unfold awaiting, compile_start. }
  assert (s2 = step_ s1 ev) as Hs2.
  { unfold s2, s1, compile. by rewrite foldl_app. }
  assert (s3 = foldl step_ s2 post) as Hs3.
  { unfold s3, compile. rewrite foldl_app. simpl. by rewrite Hs2. }
  split; [done|].
  destruct ev as [[batch cand cap|entries|best res] sched|err|code];
    try done; simpl in *.
  - assert (optimizationPromise s2 ≠ Pending ∧
            heap s2 = (update_student module (heap s1) best).1 ∧
            ((update_student module (heap s1) best).2 = None →
             compilePromise s2 = Fulfilled ())) as (Ho2 & Hh2 & Hc2).
    { rewrite Hs2. unfold finalize. rewrite Harm, Hopt.
      unfold on_finalized. simpl. rewrite Hst.
      destruct (update_student module (heap s1) best) as [h' [e|]]; simpl.
      - done.
      - unfold settle_compile. simpl. by rewrite Hcomp. }
    split_and!; [done| |].
    + intros Hok. specialize (Hc2 Hok). split; [done|].
      rewrite Hs3, steps_settled; [done|]. by rewrite Hc2.
    + intros best' res' sched'. rewrite finalize_resolved; [done|].
      by rewrite Hs3, steps_resolved.
  - assert (compilePromise s2 = Rejected err ∧ heap s2 = heap s1) as [Hc2 Hh2].
    { rewrite Hs2. unfold on_error, settle_compile. by rewrite Hcomp. }
    split_and!; [done| |done].
    rewrite Hs3, steps_settled; [done|]. by rewrite Hc2.
  - assert (code ≠ Some 0%Z) as Hcode.
    { intros ->. by rewrite bool_decide_eq_true_2 in Hev. }
    assert (compilePromise s2
              = Rejected (Error ("Optimization process failed with code " +:+
                                 show_code code)) ∧ heap s2 = heap s1)
      as [Hc2 Hh2].
    { rewrite Hs2. unfold on_close. rewrite decide_False by done.
      unfold settle_compile. by rewrite Hcomp. }
    split_and!; [done| |done].
    rewrite Hs3, steps_settled; [done|]. by rewrite Hc2.
Qed.

(** C8.  With no scoring function configured, an evaluate or a metric
    request is answered with status 500 and a body [{error: string}]; the
    session is left as it was, so the requests that follow are served as
    if the failed request had not been made. *)
Theorem unconfigured_metric_is_reported s r sched rest :
  metric (teleprompt s) = None → scoring_request r = true →
  handle_ sched s r
  = (s, mkResponse 500
          (ErrorBody "Metric not configured on Teleprompt instance")) ∧
  serve zero show_number s ((r, sched) :: rest)
  = ((serve zero show_number s rest).1,
     mkResponse 500 (ErrorBody "Metric not configured on Teleprompt instance")
     :: (serve zero show_number s rest).2).
Proof.
  intros Hm Hr.
  assert (handle_ sched s r
          = (s, mkResponse 500
                  (ErrorBody "Metric not configured on Teleprompt instance")))
    as Hh.
  { destruct r; try done; simpl; by rewrite Hm. }
  split; [done|]. simpl. rewrite Hh.
  by destruct (serve zero show_number s rest).
Qed.

(** C10.  A finalize call while [finalizeResolve] is unset does nothing:
    the session is unchanged, nothing is thrown, and the endpoint answers
    [{status: "ok"}] with status 200. *)
Theorem finalize_unarmed_is_noop s best res sched :
  finalizeResolve (teleprompt s) = None →
  finalize best res s = s ∧
  handle_ sched s (PostFinalize best res)
  = (s, mkResponse 200 (StatusBody "ok")).
Proof.
  intros Hf.
  assert (finalize best res s = s) as Hs by (unfold finalize; by rewrite Hf).
  split; [done|]. simpl. by rewrite Hs.
Qed.

End SessionProperties.
(** * The messages a predictor sends *)

Section MessageProperties.

Context {any : Type}.
Variable llm : list Message → completion string.
Implicit Types (h : Heap) (l : loc) (tr : list TraceEntry).

Lemma no_system_message ms :
  existsb (λ msg, String.eqb (role msg) "system") ms = false →
  Forall (λ msg, role msg ≠ "system") ms.
Proof.
  induction ms as [|msg ms IH]; simpl; [by constructor|].
  intros [Hm Hms]%orb_false_elim. constructor; [|by apply IH].
  by apply String.eqb_neq.
Qed.

Lemma prepareMessages_returned instructions options msgs :
  prepareMessages instructions options = Returned msgs →
  ∃ rest, msgs = mkMessage "system" instructions :: rest ∧
          Forall (λ msg, role msg ≠ "system") rest ∧
          (messages options = Some rest ∨
           messages options = None ∧
           ∃ pr, prompt options = Some pr ∧ pr ≠ "" ∧
                 rest = [mkMessage "user" pr]).
Proof.
  unfold prepareMessages.
  destruct (messages options) as [ms|].
  - destruct (existsb _ ms) eqn:Hsys; [done|]. intros [= <-].
    exists ms. split_and!; [done|by apply no_system_message|by left].
  - destruct (prompt options) as [pr|]; [|done].
    destruct (truthy pr) eqn:Ht; [|done]. intros [= <-].
    exists [mkMessage "user" pr]. split_and!; [done| |].
    + by repeat constructor.
    + right. split; [done|]. exists pr. split_and!; [done| |done].
      intros ->. done.
Qed.

(** X1.  The messages [prepareMessages] hands to the model hold exactly
    one system message, the first, whose content is the predictor's
    instructions; what follows is the caller's [messages], when given (a
    [prompt] beside them is ignored), and otherwise the one user message
    made of a non-empty [prompt]. *)
Theorem prepareMessages_one_system_message instructions options msgs :
  prepareMessages instructions options = Returned msgs →
  ∃ rest, msgs = mkMessage "system" instructions :: rest ∧
          Forall (λ msg, role msg ≠ "system") rest ∧
          (messages options = Some rest ∨
           messages options = None ∧
           ∃ pr, prompt options = Some pr ∧ pr ≠ "" ∧
                 rest = [mkMessage "user" pr]).
Proof. apply prepareMessages_returned. Qed.

(** What [generateText] rejects with can be described, when that is so
    of what the model call rejects with: its [catch] block fails on [null]
    and [undefined] with a TypeError before it can rethrow them. *)
Lemma generateText_describable h l options tr :
  (∀ msgs e, llm msgs = Threw e → e = ThrownNullish ∨ describable e = true) →
  ∀ e, (generateText llm h l options tr).2 = Threw e → describable e = true.
Proof.
  intros Hllm e. unfold generateText.
  destruct (prepareMessages _ _) as [msgs|e'] eqn:Hp; simpl.
  - destruct (llm msgs) as [text|[|n msg st str sc|x sc]] eqn:Hl; simpl.
    + done.
    + by intros [= <-].
    + by intros [= <-].
    + by destruct (Hllm _ _ Hl).
  - intros [= ->]. unfold prepareMessages in Hp.
    destruct (messages options) as [ms|].
    + destruct (existsb _ ms); by simplify_eq.
    + destruct (prompt options) as [pr|]; [|by simplify_eq].
      destruct (truthy pr); by simplify_eq.
Qed.

Lemma generateText_entries predictors h name l options tr :
  predictors !! name = Some l →
  ∃ entries, (generateText llm h l options tr).1 = tr ++ entries ∧
             Forall (carries_instructions predictors h) entries.
Proof.
  intros Hl. unfold generateText.
  destruct (prepareMessages _ _) as [msgs|e] eqn:Hp; simpl.
  - destruct (prepareMessages_returned _ _ _ Hp) as (rest & -> & Hrest & _).
    assert (∀ e, predictor e = string_prop h l "name" →
                 input e = mkMessage "system" (string_prop h l "instructions")
                           :: rest →
                 carries_instructions predictors h e) as Hcarry.
    { intros e ??. by exists name, l, rest. }
    destruct (llm _) as [text|[|n msg st str sc|x sc]]; simpl.
    + eexists [_]. split; [done|]. constructor; [|done]. by apply Hcarry.
    + exists []. by rewrite app_nil_r.
    + eexists [_]. split; [done|]. constructor; [|done]. by apply Hcarry.
    + exists []. by rewrite app_nil_r.
  - exists []. by rewrite app_nil_r.
Qed.

Lemma host_run_entries {A} predictors h (prog : Host A) tr :
  ∃ entries, (host_run llm predictors h prog tr).1 = tr ++ entries ∧
             Forall (carries_instructions predictors h) entries.
Proof.
  revert tr. induction prog as [a|e|name options k IH]; intros tr; simpl.
  - exists []. by rewrite app_nil_r.
  - exists []. by rewrite app_nil_r.
  - destruct (predictors !! name) as [l|] eqn:Hl; [|apply IH].
    destruct (generateText_entries predictors h name l options tr Hl)
      as (es1 & Hes1 & Hall1).
    destruct (generateText llm h l options tr) as [tr' c]. simpl in Hes1.
    subst tr'. destruct (IH c (tr ++ es1)) as (es2 & Hes2 & Hall2).
    exists (es1 ++ es2). rewrite Hes2, app_assoc. split; [done|].
    by apply Forall_app.
Qed.

(** X2.  Whatever host logic does, it only appends to the trace of its
    rollout, and every entry it appends was recorded by one of the
    module's predictors with messages that open with the one system
    message, holding the instructions the store has for that predictor. *)
Theorem host_run_entries_carry_instructions {A} predictors h (prog : Host A)
    tr :
  ∃ entries, (host_run llm predictors h prog tr).1 = tr ++ entries ∧
             Forall (carries_instructions predictors h) entries.
Proof. apply host_run_entries. Qed.

(** Host logic whose throws can be described ends with an exception
    that can be described, if with one at all. *)
Lemma host_run_describable {A} predictors h (prog : Host A) :
  (∀ msgs e, llm msgs = Threw e → e = ThrownNullish ∨ describable e = true) →
  throws_values prog →
  ∀ tr e, (host_run llm predictors h prog tr).2 = Threw e →
          describable e = true.
Proof.
  intros Hllm.
  induction 1 as [a|e' He'|name options k Hk IH]; intros tr e; simpl.
  - done.
  - by intros [= <-].
  - destruct (predictors !! name) as [l|].
    + pose proof (generateText_describable h l options tr Hllm) as Hne.
      destruct (generateText llm h l options tr) as [tr' c]. simpl in Hne.
      by apply IH.
    + apply IH. by intros e0 [= <-].
Qed.

End MessageProperties.

(** * More about [Module.evaluate] *)

Section EvaluateFurther.

Context {any number : Type} (zero : number) (show_number : number → string).
Implicit Types (m : Module (any:=any)) (h : Heap).
Implicit Types (batch : list (gmap string any)).
Implicit Types (mf : MetricFunction (any:=any) (number:=number)).
Implicit Types (mapper : option (gmap string any → gmap string any)).

(** A method no predictor shadows. *)
Lemma this_get_method m name :
  name ∈ methods → fields m !! name = None → this_get m name = MFunction.
Proof.
  intros Hin Hf. unfold this_get. rewrite Hf.
  assert ("_forward" ∉ methods) as Hnf
    by (apply (bool_decide_unpack _); by vm_compute).
  assert ("_predictors" ∉ methods) as Hnp
    by (apply (bool_decide_unpack _); by vm_compute).
  rewrite !decide_False by (by intros ->).
  by rewrite decide_True.
Qed.

(** A report that is returned fills every slot, given a worker. *)
Lemma returned_report_is_full m h batch capture_traces mf mapper numWorkers
    sched report :
  0 < numWorkers ∨ batch = [] →
  settle capture_traces
    (final_pool zero show_number m h batch capture_traces mf mapper
       numWorkers sched) = Returned report →
  length (outputs report) = length batch ∧
  Forall is_Some (outputs report) ∧ Forall is_Some (scores report) ∧
  Forall is_Some (trajectories report).
Proof.
  intros HC Hreport.
  destruct (final_pool_returns_sequential zero show_number m h batch
              capture_traces mf mapper numWorkers sched HC report Hreport)
    as [-> Hroll].
  unfold sequential_report. simpl. rewrite length_fmap.
  assert (∀ ex, ex ∈ batch →
            ∃ r, call_run m h (inputs_of mapper ex) = Returned r) as Hret.
  { intros ex Hex. apply (proj1 (Forall_forall _ _) Hroll) in Hex.
    destruct (call_run _ _ _); [eauto|done]. }
  split_and!; [done| | |].
  - apply Forall_fmap, Forall_forall. intros ex Hex. simpl.
    unfold sequential_output. by destruct (Hret _ Hex) as [r ->].
  - apply Forall_fmap, Forall_forall. intros ex Hex. simpl.
    unfold sequential_score. by destruct (Hret _ Hex) as [r ->].
  - destruct capture_traces; [|done].
    apply Forall_lookup. intros i o. rewrite list_lookup_imap.
    destruct (batch !! i) as [ex|] eqn:Hex; [|done]. simpl. intros [= <-].
    unfold sequential_trajectory.
    destruct (Hret ex) as [r ->]; [|done]. by eapply list_elem_of_lookup_2.
Qed.




(** X5.  Without a worker [evaluate] runs no rollout and still returns:
    every slot of the report is a hole. *)
Theorem evaluate_without_workers m h batch candidate capture_traces mf mapper
    sched :
  (evaluate zero show_number m h batch candidate capture_traces 0 mf mapper
     sched).2
  = Returned (mkBatch (replicate (length batch) None)
                (replicate (length batch) None)
                (if capture_traces then replicate (length batch) None
                 else [])).
Proof.
  unfold evaluate, final_pool, start_workers. simpl.
  by destruct (enough_fuel batch).
Qed.

(** X6.  Applying a candidate that has no entry named [__proto__] writes
    [instructions] fields and nothing else: [evaluate] creates and removes
    no object, leaves every other field of every object as it was, and
    leaves untouched every object that no candidate entry names as a member
    of the module.  (An entry named [__proto__] names the prototype of the
    class, which is no object of the store.) *)
Theorem evaluate_writes_instructions_only m h batch candidate capture_traces
    numWorkers mf mapper sched :
  "__proto__" ∉ candidate.*1 →
  let h' := (evaluate zero show_number m h batch candidate capture_traces
               numWorkers mf mapper sched).1 in
  dom h' = dom h ∧
  (∀ l k, k ≠ "instructions" → get_prop h' l k = get_prop h l k) ∧
  (∀ l, (∀ name text, (name, text) ∈ candidate →
                      this_get m name ≠ MObject l) →
        h' !! l = h !! l).
Proof.
  intros _. unfold evaluate. simpl. split_and!.
  - apply set_eq. intros l.
    rewrite !elem_of_dom, update_candidate_prompts_lookup.
    destruct (last_prompt m candidate l); [|done]. by rewrite fmap_is_Some.
  - intros l k Hk. by apply update_candidate_prompts_frame.
  - intros l Hl. rewrite update_candidate_prompts_lookup.
    assert (last_prompt m candidate l = None) as ->; [|done].
    unfold last_prompt.
    assert (filter (λ entry, this_get m entry.1 = MObject l) candidate = [])
      as ->; [|done].
    apply elem_of_nil_inv. intros [name text] Hx.
    apply list_elem_of_filter in Hx as [Hx Hin]. by apply (Hl name text).
Qed.

(** The rollouts of a module whose forward logic throws values that can
    be described. *)
Lemma rollouts_return_of_values m h batch mapper llm prog :
  _forward m = Some (forward_of llm (fields m) prog) →
  (∀ inputs, throws_values (prog inputs)) →
  (∀ msgs e, llm msgs = Threw e → e = ThrownNullish ∨ describable e = true) →
  fields m !! "run" = None →
  rollouts_return m h batch mapper.
Proof.
  intros Hf Hprog Hllm Hrun. apply Forall_forall. intros ex _.
  apply call_run_returns.
  - apply this_get_method; [|done].
    apply (bool_decide_unpack _). by vm_compute.
  - unfold call_forward.
    destruct (this_get m "forward"); [by intros e [= <-]| |by intros e [= <-]].
    unfold forward. rewrite Hf. unfold forward_of.
    by apply host_run_describable.
Qed.

(** X7.  When forward logic reaches the model through the module's
    predictors, every value it throws itself can be described by the
    [catch] block of [run] (it is not [null], [undefined] or a value whose
    reads or conversion to a string throw), and the model call fails with
    nothing but [null], [undefined] or such a value, then [evaluate] returns
    for every batch, candidate, number of workers and interleaving; with a
    worker, every slot of the report is filled. *)
Theorem evaluate_returns_when_logic_throws_values m h batch candidate
    capture_traces numWorkers mf mapper sched llm prog :
  _forward m = Some (forward_of llm (fields m) prog) →
  (∀ inputs, throws_values (prog inputs)) →
  (∀ msgs e, llm msgs = Threw e → e = ThrownNullish ∨ describable e = true) →
  fields m !! "run" = None →
  ∃ report,
    (evaluate zero show_number m h batch candidate capture_traces numWorkers
       mf mapper sched).2 = Returned report ∧
    length (outputs report) = length batch ∧
    length (scores report) = length batch ∧
    (0 < numWorkers →
     Forall is_Some (outputs report) ∧ Forall is_Some (scores report)).
Proof.
  intros Hf Hprog Hllm Hrun. unfold evaluate. simpl.
  set (h' := update_candidate_prompts m h candidate).
  pose proof (rollouts_return_of_values m h' batch mapper llm prog Hf Hprog
                Hllm Hrun) as Hroll.
  destruct (final_pool_settles zero show_number _ _ _ capture_traces mf _
              Hroll numWorkers sched) as (_ & Hs).
  eexists. split; [exact Hs|].
  pose proof (settle_shape zero show_number m h' batch capture_traces mf
                mapper numWorkers sched) as Hshape.
  rewrite Hs in Hshape. destruct Hshape as (Hlo & Hls & _).
  split_and!; [done|done|]. intros HC.
  destruct (returned_report_is_full m h' batch capture_traces mf mapper
              numWorkers sched _ (or_introl HC) Hs) as (_ & Ho & Hsc & _).
  done.
Qed.

(** X8.  A module whose forward logic was never set still evaluates:
    with a worker, [evaluate] returns, and every output is the failure
    prediction of kind [Error] that says so. *)
Theorem evaluate_without_forward m h batch candidate capture_traces numWorkers
    mf mapper sched :
  _forward m = None → fields m !! "forward" = None →
  fields m !! "run" = None → 0 < numWorkers →
  ∃ report,
    (evaluate zero show_number m h batch candidate capture_traces numWorkers
       mf mapper sched).2 = Returned report ∧
    length (outputs report) = length batch ∧
    Forall (λ o, ∃ p, o = Some p ∧ p_output p = Null ∧
                      errorType p = JString "Error" ∧
                      errorMessage p = JString "Forward function is not set")
      (outputs report).
Proof.
  intros Hf Hfw Hrun HC. unfold evaluate. simpl.
  set (h' := update_candidate_prompts m h candidate).
  assert (∀ x, call_run m h' x
               = Returned (mkRunResult
                   (mkPrediction Null (JString "Error")
                      (JString "Forward function is not set") JNull) []))
    as Hcall.
  { intros x. unfold call_run.
    rewrite (this_get_method m "run")
      by (done || apply (bool_decide_unpack _); by vm_compute).
    unfold run, call_forward.
    rewrite (this_get_method m "forward")
      by (done || apply (bool_decide_unpack _); by vm_compute).
    unfold forward. by rewrite Hf. }
  assert (rollouts_return m h' batch mapper) as Hroll.
  { apply Forall_forall. intros ex _. by rewrite Hcall. }
  eexists. split.
  - by apply (final_pool_sequential zero show_number _ _ _ capture_traces mf
                _ Hroll numWorkers sched); left.
  - unfold sequential_report. simpl. rewrite length_fmap. split; [done|].
    apply Forall_fmap, Forall_forall. intros ex _. simpl.
    unfold sequential_output. rewrite Hcall. simpl. eauto.
Qed.

(** X9.  With a worker, [evaluate] returns exactly when no rollout of
    the batch rejects: one rollout that rejects makes the whole call reject,
    whatever the interleaving, and the results of the other rollouts are
    lost with it. *)
Theorem evaluate_returns_iff_no_rollout_rejects m h batch candidate
    capture_traces numWorkers mf mapper sched :
  0 < numWorkers →
  (∃ report,
     (evaluate zero show_number m h batch candidate capture_traces numWorkers
        mf mapper sched).2 = Returned report) ↔
  rollouts_return m (update_candidate_prompts m h candidate) batch mapper.
Proof.
  intros HC. unfold evaluate. simpl. split.
  - intros [report Hreport].
    by destruct (final_pool_returns_sequential zero show_number m _ batch
                   capture_traces mf mapper numWorkers sched (or_introl HC)
                   report Hreport).
  - intros Hroll.
    destruct (final_pool_settles zero show_number _ _ _ capture_traces mf _
                Hroll numWorkers sched) as (_ & Hs).
    eauto.
Qed.

(** X10.  A predictor named [run] shadows the method: with a worker and
    a batch that is not empty, every [evaluate] of such a module rejects
    with the TypeError of calling an object. *)
Theorem predictor_named_run_fails_evaluate m h batch candidate capture_traces
    numWorkers mf mapper sched l :
  fields m !! "run" = Some l → batch ≠ [] → 0 < numWorkers →
  (evaluate zero show_number m h batch candidate capture_traces numWorkers mf
     mapper sched).2
  = Threw (TypeError "this.run is not a function").
Proof.
  intros Hrun Hbatch HC. unfold evaluate. simpl.
  set (h' := update_candidate_prompts m h candidate).
  assert (∀ x, call_run m h' x
               = Threw (TypeError "this.run is not a function")) as Hcall.
  { intros x. unfold call_run, this_get. rewrite decide_False by done.
    by rewrite Hrun. }
  pose proof (settle_shape zero show_number m h' batch capture_traces mf
                mapper numWorkers sched) as Hshape.
  destruct (settle _ _) as [report|e] eqn:Hs.
  - destruct (final_pool_returns_sequential zero show_number m h' batch
                capture_traces mf mapper numWorkers sched (or_introl HC)
                report Hs) as [_ Hroll].
    destruct batch as [|ex batch']; [done|].
    apply Forall_cons in Hroll as [Hret _]. by rewrite Hcall in Hret.
  - destruct Hshape as (ex & _ & Hex). rewrite Hcall in Hex. congruence.
Qed.

(** X11.  A predictor named [forward] shadows the method as well, and
    here [run] contains the failure: with a worker, [evaluate] returns, and
    every output is a failure prediction of kind [TypeError]. *)
Theorem predictor_named_forward_fails_every_rollout m h batch candidate
    capture_traces numWorkers mf mapper sched l :
  fields m !! "forward" = Some l → fields m !! "run" = None →
  0 < numWorkers →
  ∃ report,
    (evaluate zero show_number m h batch candidate capture_traces numWorkers
       mf mapper sched).2 = Returned report ∧
    length (outputs report) = length batch ∧
    Forall (λ o, ∃ p, o = Some p ∧ p_output p = Null ∧
                      errorType p = JString "TypeError" ∧
                      errorMessage p
                      = JString "this.forward is not a function")
      (outputs report).
Proof.
  intros Hfw Hrun HC. unfold evaluate. simpl.
  set (h' := update_candidate_prompts m h candidate).
  assert (∀ x, call_run m h' x
               = Returned (mkRunResult
                   (mkPrediction Null (JString "TypeError")
                      (JString "this.forward is not a function") JNull) []))
    as Hcall.
  { intros x. unfold call_run.
    rewrite (this_get_method m "run")
      by (done || apply (bool_decide_unpack _); by vm_compute).
    unfold run, call_forward, this_get. rewrite decide_False by done.
    by rewrite Hfw. }
  assert (rollouts_return m h' batch mapper) as Hroll.
  { apply Forall_forall. intros ex _. by rewrite Hcall. }
  eexists. split.
  - by apply (final_pool_sequential zero show_number _ _ _ capture_traces mf
                _ Hroll numWorkers sched); left.
  - unfold sequential_report. simpl. rewrite length_fmap. split; [done|].
    apply Forall_fmap, Forall_forall. intros ex _. simpl.
    unfold sequential_output. rewrite Hcall. simpl. eauto.
Qed.

End EvaluateFurther.

(** * [Dataset] *)

Section DatasetProperties.

Context {any : Type}.
Implicit Types (d : Dataset) (ex : gmap string any).

(** The field [getInputs] gives under [inputKey]: the value of the last
    entry of the mapping that leads to [inputKey] from a field the example
    has.  The order of the other entries does not matter. *)
Lemma getInputs_lookup d ex inputKey :
  getInputs d ex !! inputKey
  = last (filter (λ e, e.2 = inputKey ∧ is_Some (ex !! e.1)) (inputs d))
    ≫= λ e, ex !! e.1.
Proof.
  unfold getInputs.
  induction (inputs d) as [|[datasetKey key] es IH] using rev_ind; [done|].
  rewrite foldl_snoc, filter_app, last_app. simpl.
  rewrite filter_cons, filter_nil. simpl.
  destruct (ex !! datasetKey) as [v|] eqn:Hv.
  - destruct (decide (key = inputKey)) as [->|Hne].
    + rewrite decide_True by eauto. simpl.
      by rewrite lookup_insert_eq, Hv.
    + rewrite decide_False by (by intros [? _]). simpl.
      by rewrite lookup_insert_ne.
  - rewrite decide_False; [done|]. by intros [_ [? ?]].
Qed.

(** X12.  Under a mapping that reads no field named like a member every
    object inherits and writes no field named [__proto__], [getInputs]
    renames and selects: the result has a field [inputKey] exactly when some
    entry of the mapping leads to it from a field the example has, and then
    holds the value of the last such entry; a field the example lacks is
    skipped, and nothing else enters the result. *)
Theorem getInputs_takes_last_mapped_field d ex inputKey :
  Forall (λ datasetKey, datasetKey ∉ Object_prototype) (inputs d).*1 →
  "__proto__" ∉ (inputs d).*2 →
  getInputs d ex !! inputKey
  = last (filter (λ e, e.2 = inputKey ∧ is_Some (ex !! e.1)) (inputs d))
    ≫= λ e, ex !! e.1.
Proof. intros _ _. apply getInputs_lookup. Qed.

(** The entries of a dataset built from an array of names. *)
Lemma new_Dataset_inputs (names : list string) e :
  e ∈ inputs (new_Dataset names) ↔ ∃ name, name ∈ names ∧ e = (name, name).
Proof.
  unfold new_Dataset. simpl. revert e.
  induction names as [|input names IH] using rev_ind; intros e; simpl.
  - split; [by intros ?%elem_of_nil|]. by intros (? & ?%elem_of_nil & _).
  - rewrite foldl_snoc.
    set (inputsDict := foldl _ [] names) in *.
    assert (input ∈ inputsDict.*1 → (input, input) ∈ inputsDict) as Hkept.
    { intros Hin. apply list_elem_of_fmap in Hin as ([k k'] & -> & Hin).
      pose proof Hin as Hin'. apply IH in Hin' as (name & _ & [= -> ->]).
      done. }
    case_decide as Hin.
    + rewrite IH. split.
      * intros (name & Hname & ->). exists name.
        split; [|done]. apply elem_of_app. by left.
      * intros (name & Hname & ->).
        apply elem_of_app in Hname as [Hname|Hname]; [by exists name|].
        apply list_elem_of_singleton in Hname as ->. apply IH. by apply Hkept.
    + rewrite elem_of_app, IH, list_elem_of_singleton. split.
      * intros [(name & Hname & ->)| ->].
        -- exists name. split; [|done]. apply elem_of_app. by left.
        -- exists input. split; [|done]. apply elem_of_app. right.
           by apply list_elem_of_singleton.
      * intros (name & Hname & ->).
        apply elem_of_app in Hname as [Hname|Hname]; [left; by exists name|].
        apply list_elem_of_singleton in Hname as ->. by right.
Qed.

(** A mapping of names to themselves selects, in whatever order its
    entries stand. *)
Lemma getInputs_identity d (names : list string) ex k :
  (∀ e, e ∈ inputs d ↔ ∃ name, name ∈ names ∧ e = (name, name)) →
  getInputs d ex !! k = if decide (k ∈ names) then ex !! k else None.
Proof.
  intros Hd. rewrite getInputs_lookup.
  destruct (last _) as [[datasetKey key]|] eqn:Hlast; simpl.
  - apply last_Some_elem_of in Hlast as Hin.
    apply list_elem_of_filter in Hin as [[Hk _] Hin]. simpl in Hk. subst key.
    apply Hd in Hin as (name & Hname & Heq). injection Heq as -> ->.
    by rewrite decide_True.
  - apply last_None in Hlast. case_decide as Hk; [|done].
    destruct (ex !! k) as [v|] eqn:Hv; [|done].
    assert ((k, k) ∈
              filter (λ e : string * string, e.2 = k ∧ is_Some (ex !! e.1))
                (inputs d)) as Hin.
    { apply list_elem_of_filter. split; [simpl; rewrite Hv; eauto|].
      apply Hd. by exists k. }
    rewrite Hlast in Hin. by apply elem_of_nil in Hin.
Qed.

(** X13.  A dataset built from an array of field names, none of them the
    name of a member every object inherits, gives forward logic exactly the
    listed fields the example has, under their own names, and nothing else;
    mapping twice is mapping once; and the order in which the entries of
    the mapping are listed makes no difference. *)
Theorem getInputs_keeps_listed_fields (names : list string) ex :
  Forall (λ name, name ∉ Object_prototype) names →
  (∀ k, getInputs (new_Dataset names) ex !! k
        = if decide (k ∈ names) then ex !! k else None) ∧
  getInputs (new_Dataset names) (getInputs (new_Dataset names) ex)
  = getInputs (new_Dataset names) ex ∧
  (∀ d, (∀ e, e ∈ inputs d ↔ e ∈ inputs (new_Dataset names)) →
        getInputs d ex = getInputs (new_Dataset names) ex).
Proof.
  intros _.
  pose proof (λ ex k, getInputs_identity (new_Dataset names) names ex k
                        (new_Dataset_inputs names)) as Hnew.
  split_and!; [apply Hnew| |].
  - apply map_eq. intros k. rewrite !Hnew. by case_decide.
  - intros d Hd. apply map_eq. intros k. rewrite Hnew.
    apply getInputs_identity. intros e. rewrite Hd.
    apply new_Dataset_inputs.
Qed.

End DatasetProperties.

(** * More about the session *)

Section SessionFurther.

Context {any number : Type} (zero : number) (show_number : number → string).
Implicit Types (s : Session (any:=any) (number:=number)).
Implicit Types (ev : signal (any:=any)).
Implicit Types (mf : MetricFunction (any:=any) (number:=number)).

Local Abbreviation step_ := (step zero show_number).
Local Abbreviation handle_ := (handle zero show_number).

(** A thread count that is missing, zero or at least 1 gives a worker. *)
Lemma num_workers_pos (t : Teleprompt (any:=any) (number:=number)) :
  (∀ q, numThreads t = Some q → Qeq_bool q 0 = true ∨ (1 <= q)%Q) →
  0 < num_workers t.
Proof.
  intros Hq. unfold num_workers. destruct (numThreads t) as [q|]; [|lia].
  destruct (Qeq_bool q 0) eqn:Hz; [lia|].
  destruct (Hq q eq_refl) as [?|Hge]; [congruence|].
  apply Qfloor_resp_le in Hge. change (Qfloor 1) with 1%Z in Hge. lia.
Qed.

(** A thread count below 1 that is not zero gives none. *)
Lemma num_workers_none (t : Teleprompt (any:=any) (number:=number)) q :
  numThreads t = Some q → Qeq_bool q 0 = false → (q < 1)%Q →
  num_workers t = 0.
Proof.
  intros Hq Hz Hlt. unfold num_workers. rewrite Hq, Hz.
  assert (Qfloor q < 1)%Z as Hfloor.
  { rewrite Zlt_Qlt. eapply Qle_lt_trans; [apply Qfloor_le|exact Hlt]. }
  lia.
Qed.






(** X15.  The evaluate endpoint reads the number of workers off
    [numThreads || 4].  With [numThreads] missing, zero or at least 1 there
    is a worker, and a report the endpoint sends has no hole: every output
    and score (and with [capture_traces] every trajectory) of the batch is
    filled.  With a [numThreads] below 1 that is not zero (negative, or a
    fraction) there is none, and the endpoint answers status 200 with a
    report of holes. *)
Theorem evaluate_endpoint_report_holes s batch candidate capture_traces sched :
  (∀ report,
     (∀ q, numThreads (teleprompt s) = Some q →
           Qeq_bool q 0 = true ∨ (1 <= q)%Q) →
     (handle zero show_number sched s
        (PostEvaluate batch candidate capture_traces)).2
     = mkResponse 200 (ReportBody report) →
     length (outputs report) = length batch ∧
     length (scores report) = length batch ∧
     Forall is_Some (outputs report) ∧ Forall is_Some (scores report) ∧
     (capture_traces = true →
      length (trajectories report) = length batch ∧
      Forall is_Some (trajectories report))) ∧
  (∀ q mf,
     numThreads (teleprompt s) = Some q →
     Qeq_bool q 0 = false → (q < 1)%Q →
     metric (teleprompt s) = Some mf →
     this_get (student s) "evaluate" = MFunction →
     (handle zero show_number sched s
        (PostEvaluate batch candidate capture_traces)).2
     = mkResponse 200
         (ReportBody
            (mkBatch (replicate (length batch) None)
               (replicate (length batch) None)
               (if capture_traces then replicate (length batch) None
                else [])))).
Proof.
  split.
  - intros report Hthreads. simpl.
    destruct (metric (teleprompt s)) as [mf|]; [|done].
    destruct (this_get (student s) "evaluate"); [done| |done].
    unfold evaluate.
    set (h' := update_candidate_prompts (student s) (heap s) candidate).
    pose proof (settle_shape zero show_number (student s) h' batch
                  capture_traces mf (getInputs <$> dataset (teleprompt s))
                  (num_workers (teleprompt s)) sched) as Hshape.
    destruct (settle _ _) as [report'|e] eqn:Hs; simpl; [|done].
    intros [= ->].
    destruct (returned_report_is_full zero show_number _ _ _ _ _ _ _ _ _
                (or_introl (num_workers_pos (teleprompt s) Hthreads)) Hs)
      as (_ & Ho & Hsc & Htr).
    destruct Hshape as (Hlo & Hls & _ & Hlt). split_and!; try done.
    intros Hcap. split; [by apply Hlt|done].
  - intros q mf Hq Hz Hlt Hmf Hev. simpl. rewrite Hmf, Hev.
    rewrite (num_workers_none _ q Hq Hz Hlt).
    unfold evaluate, final_pool, start_workers. simpl.
    by destruct (enough_fuel batch).
Qed.

(** X17.  A verdict that arrives after the process has failed still
    rewrites the student: [compile] has rejected and stays rejected, the
    server is closed, and yet the finalize call applies its
    [best_candidate] to the module the caller handed in. *)
Theorem late_finalize_still_updates_student t module h mf ds pre failure best
    res sched :
  Forall (λ ev, decisive ev = false) pre →
  (∃ err, failure = ProcessError err) ∨
  (∃ code, failure = ProcessClose code ∧ code ≠ Some 0%Z) →
  let failed := compile zero show_number t module h mf ds (pre ++ [failure]) in
  let late := step_ failed (Http (PostFinalize best res) sched) in
  (∃ e, compilePromise failed = Rejected e ∧
        compilePromise late = Rejected e) ∧
  listening late = false ∧
  heap late = (update_student module (heap failed) best).1.
Proof.
  intros Hpre Hfail failed late.
  set (s1 := compile zero show_number t module h mf ds pre).
  assert (awaiting module s1) as (Hstudent & Harmed & Hopt & Hcomp).
  { apply steps_quiet; [|done]. by repeat split. }
  assert (∃ e, failed = mkSession (teleprompt s1) (student s1) (heap s1)
                          (optimizationPromise s1) (Rejected e) false)
    as [e Hfailed].
  { unfold failed, compile. rewrite foldl_snoc.
    change (foldl (step zero show_number) (compile_start t module h mf ds)
              pre) with s1.
    destruct Hfail as [[err ->]|(code & -> & Hcode)]; simpl.
    - unfold on_error, settle_compile. rewrite Hcomp. eauto.
    - unfold on_close. rewrite decide_False by done.
      unfold settle_compile. rewrite Hcomp. eauto. }
  unfold late. rewrite Hfailed. simpl. unfold finalize. simpl.
  rewrite Harmed, Hopt. unfold on_finalized. simpl. rewrite Hstudent.
  destruct (update_student module (heap s1) best) as [h' [x|]]; simpl; eauto.
Qed.

End SessionFurther.

(** * Construction and persistence *)

Section PersistenceProperties.

Context {any : Type}.
Implicit Types (m : Module (any:=any)) (h : Heap) (l : loc).
Implicit Types (es : list (string * value)).

(** Every object has a listing. *)
Lemma Object_entries_listing h l : listing h l (Object_entries h l).
Proof.
  unfold listing, Object_entries, get_prop.
  split; [apply NoDup_fst_map_to_list|].
  intros k v. rewrite elem_of_map_to_list.
  destruct (h !! l); simpl; [done|]. by rewrite lookup_empty.
Qed.

Lemma listing_functional h l es k v v' :
  listing h l es → (k, v) ∈ es → (k, v') ∈ es → v = v'.
Proof.
  intros [_ Hes] Hv Hv'. apply Hes in Hv, Hv'. congruence.
Qed.

Lemma last_filter_unique {A} (P : A → Prop) `{!∀ x, Decision (P x)}
    (xs : list A) x :
  x ∈ xs → P x → (∀ y, y ∈ xs → P y → y = x) → last (filter P xs) = Some x.
Proof.
  intros Hin HP Huniq. destruct (last (filter P xs)) as [y|] eqn:Hlast.
  - apply last_Some_elem_of, list_elem_of_filter in Hlast as [HPy Hy].
    f_equal. by apply Huniq.
  - apply last_None in Hlast.
    assert (x ∈ filter P xs) as Hx by (by apply list_elem_of_filter).
    rewrite Hlast in Hx. by apply elem_of_nil in Hx.
Qed.

Lemma last_filter_none {A} (P : A → Prop) `{!∀ x, Decision (P x)}
    (xs : list A) :
  (∀ y, y ∈ xs → ¬ P y) → last (filter P xs) = None.
Proof.
  intros Hnone. apply last_None, elem_of_nil_inv. intros y Hy.
  apply list_elem_of_filter in Hy as [HP Hy]. by apply (Hnone y).
Qed.

Lemma set_prop_same h l k v :
  get_prop h l k = Some v → set_prop h l k v = h.
Proof.
  unfold get_prop, set_prop. intros Hget. apply map_eq. intros l'.
  destruct (decide (l' = l)) as [->|Hne].
  - rewrite lookup_alter_eq. destruct (h !! l) as [o|]; simpl in *; [|done].
    by rewrite insert_id.
  - by rewrite lookup_alter_ne.
Qed.

(** ** The constructor *)

(** The constructor's loop over a record of objects: the members it
    attaches and the store it leaves. *)
Lemma attach_objects h (fs : gmap string loc) es :
  Forall (λ e, ∃ l, e.2 = VObject l) es →
  (foldl attach (h, fs, None) es).2 = None ∧
  (∀ name,
     (foldl attach (h, fs, None) es).1.2 !! name
     = match last (filter (λ e, e.1 = name) es) with
       | Some e => match e.2 with VObject l => Some l | VString _ => None end
       | None => fs !! name
       end) ∧
  (∀ l,
     (foldl attach (h, fs, None) es).1.1 !! l
     = match last (filter (λ e, e.2 = VObject l) es) with
       | Some e => <["name" := VString e.1]> <$> h !! l
       | None => h !! l
       end).
Proof.
  induction es as [|[name' v] es IH] using rev_ind; intros Hall; [done|].
  apply Forall_app in Hall as [Hall Hv].
  apply Forall_singleton in Hv as [l' Hv]. simpl in Hv. subst v.
  destruct (IH Hall) as (Hexn & Hfs & Hh). rewrite foldl_snoc.
  destruct (foldl attach (h, fs, None) es) as [[h1 fs1] exn].
  simpl in Hexn, Hfs, Hh. subst exn. unfold attach. simpl.
  split_and!; [done| |].
  - intros name. rewrite filter_app, last_app, filter_cons, filter_nil. simpl.
    destruct (decide (name' = name)) as [->|Hne]; simpl.
    + by rewrite lookup_insert_eq.
    + rewrite lookup_insert_ne by done. apply Hfs.
  - intros l. rewrite filter_app, last_app, filter_cons, filter_nil. simpl.
    unfold set_prop.
    destruct (decide (VObject l' = VObject l)) as [[= ->]|Hne]; simpl.
    + rewrite lookup_alter_eq, Hh. destruct (last _); simpl; [|done].
      destruct (h !! l); simpl; [|done]. by rewrite insert_insert_eq.
    + rewrite lookup_alter_ne by congruence. apply Hh.
Qed.

(** The constructor returns only on a record of objects. *)
Lemma attach_returned es : ∀ st,
  (foldl attach st es).2 = None →
  st.2 = None ∧ Forall (λ e, ∃ l, e.2 = VObject l) es.
Proof.
  induction es as [|[name v] es IH]; intros st; simpl; [done|].
  intros Hst. destruct (IH _ Hst) as [Hexn Hall].
  unfold attach in Hexn. simpl in Hexn.
  destruct (st.2) eqn:Hst2; [by rewrite Hexn in Hst2|].
  destruct v as [s|l]; [done|]. split; [done|]. constructor; [|done].
  simpl. eauto.
Qed.

Lemma new_Module_returned h predictors es forward h' m :
  listing h predictors es →
  new_Module h predictors es forward = (h', Returned m) →
  _predictors m = predictors ∧ _forward m = forward ∧
  (∀ name v, get_prop h predictors name = Some v → ∃ l, v = VObject l) ∧
  (∀ name l, fields m !! name = Some l ↔
             get_prop h predictors name = Some (VObject l)) ∧
  (∀ l k, k ≠ "name" → get_prop h' l k = get_prop h l k) ∧
  (∀ l, (∀ name, get_prop h predictors name ≠ Some (VObject l)) →
        h' !! l = h !! l) ∧
  (∀ name l,
     get_prop h predictors name = Some (VObject l) → is_Some (h !! l) →
     (∀ name', get_prop h predictors name' = Some (VObject l) →
               name' = name) →
     get_prop h' l "name" = Some (VString name)).
Proof.
  intros Hlist. pose proof Hlist as [_ Hes]. unfold new_Module.
  destruct ((foldl attach (h, ∅, None) es).2) as [e|] eqn:Hexn; [done|].
  destruct (attach_returned _ _ Hexn) as [_ Hall].
  destruct (attach_objects h ∅ es Hall) as (_ & Hfs & Hh).
  intros [= <- <-]. simpl. split_and!; [done|done| | | | |].
  - intros name v Hv. apply Hes in Hv.
    by apply (proj1 (Forall_forall _ _) Hall) in Hv.
  - intros name l. rewrite Hfs. split.
    + destruct (last _) as [[name' v]|] eqn:Hlast; [|by rewrite lookup_empty].
      apply last_Some_elem_of, list_elem_of_filter in Hlast as [Hname Hin].
      simpl in *. subst name'. destruct v as [s|l0]; [done|].
      intros [= ->]. by apply Hes.
    + intros Hget. apply Hes in Hget.
      rewrite (last_filter_unique _ es (name, VObject l)); [done|done|done|].
      intros [name' v] Hin Hname. simpl in Hname. subst name'. f_equal.
      by eapply listing_functional.
  - intros l k Hk. unfold get_prop. rewrite Hh.
    destruct (last _); [|done]. destruct (h !! l); simpl; [|done].
    by rewrite lookup_insert_ne.
  - intros l Hl. rewrite Hh. rewrite last_filter_none; [done|].
    intros [name v] Hin Hv. simpl in Hv. subst v. apply Hes in Hin.
    by apply (Hl name).
  - intros name l Hget [o Ho] Huniq. apply Hes in Hget.
    unfold get_prop. rewrite Hh.
    rewrite (last_filter_unique _ es (name, VObject l)); [|done|done|].
    + rewrite Ho. simpl. by rewrite lookup_insert_eq.
    + intros [name' v] Hin Hv. simpl in Hv. subst v. f_equal.
      apply Huniq. by apply Hes.
Qed.


(** X19.  On a module the constructor has built from a record that
    holds no entry named [_predictors], [_forward] or [__proto__] and does
    not hold itself, [evaluate] and the callback of [compile] apply a
    candidate alike, and the callback does not throw, for every candidate
    without an entry named [_predictors] or named like a member every
    object inherits (there the two lookups, [this[name]] and
    [student._predictors[name]], find different things). *)
Theorem constructed_module_applies_candidates_alike h predictors es forward
    h' m candidate :
  listing h predictors es →
  new_Module h predictors es forward = (h', Returned m) →
  get_prop h predictors "_predictors" = None →
  get_prop h predictors "_forward" = None →
  get_prop h predictors "__proto__" = None →
  (∀ name, get_prop h predictors name ≠ Some (VObject predictors)) →
  "_predictors" ∉ candidate.*1 →
  Forall (λ name, name ∉ Object_prototype) candidate.*1 →
  update_student m h' candidate
  = (update_candidate_prompts m h' candidate, None).
Proof.
  intros Hlist Hnew Hnp Hnf _ Hself Hcand _.
  destruct (new_Module_returned _ _ _ _ _ _ Hlist Hnew)
    as (Hp & _ & Hobj & Hfs & _ & Hout & _).
  assert (fields m !! "_predictors" = None) as Hfp.
  { destruct (fields m !! "_predictors") as [l|] eqn:Hl; [|done].
    apply Hfs in Hl. by rewrite Hnp in Hl. }
  assert (fields m !! "_forward" = None) as Hff.
  { destruct (fields m !! "_forward") as [l|] eqn:Hl; [|done].
    apply Hfs in Hl. by rewrite Hnf in Hl. }
  assert (predictors_of m = predictors) as Hrec.
  { unfold predictors_of. by rewrite Hfp. }
  assert (∀ k, get_prop h' predictors k = get_prop h predictors k) as Hkeep.
  { intros k. unfold get_prop. by rewrite (Hout predictors Hself). }
  apply update_paths_agree.
  - intros k v. rewrite Hrec, Hkeep. intros Hv.
    destruct (Hobj _ _ Hv) as [l ->]. exists l. split; [done|].
    intros ->. by apply (Hself k).
  - intros name text l Hin. rewrite Hrec, Hkeep, <- Hfs. unfold this_get.
    case_decide as Hname.
    + subst name. rewrite Hff. by destruct (_forward m).
    + destruct (fields m !! name) as [l'|] eqn:Hl';
        [split; congruence|].
      rewrite decide_False.
      2:{ intros ->. apply Hcand. apply list_elem_of_fmap.
          by exists ("_predictors", text). }
      by case_decide.
Qed.

(** ** [save], [load] and the seed candidate *)

Lemma state_of_elem h es state name text :
  state_of h es = Some state →
  (name, text) ∈ state ↔
  ∃ l, (name, VObject l) ∈ es ∧
       get_prop h l "instructions" = Some (VString text).
Proof.
  unfold state_of. intros Hstate.
  apply fmap_Some in Hstate as (ys & Hys & ->).
  apply mapM_Some in Hys.
  induction Hys as [|[name' v] y es ys Hy Hys IH]; simpl.
  - split; [by intros ?%elem_of_nil|]. by intros (l & ?%elem_of_nil & _).
  - rewrite elem_of_app, IH. unfold state_entry in Hy. simpl in Hy.
    split.
    + intros [Hin|(l & Hin & Hl)].
      * destruct v as [s|l]; [injection Hy as <-; by apply elem_of_nil in Hin|].
        destruct (get_prop h l "instructions") as [[s|l0]|] eqn:Hget;
          [|done|injection Hy as <-; by apply elem_of_nil in Hin].
        injection Hy as <-. apply list_elem_of_singleton in Hin as [= -> ->].
        exists l. split; [by left|done].
      * exists l. split; [by right|done].
    + intros (l & Hin & Hl). apply elem_of_cons in Hin as [[= <- <-]|Hin].
      * left. rewrite Hl in Hy. injection Hy as <-. by left.
      * right. eauto.
Qed.

(** The store after [load], or after the callback of [compile], object by
    object. *)
Lemma update_student_lookup m (candidate : list (string * string)) h l :
  record_of_predictors m h →
  (update_student m h candidate).1 !! l
  = match last (filter (λ e, get_prop h (predictors_of m) e.1
                             = Some (VObject l)) candidate) with
    | Some e => <["instructions" := VString e.2]> <$> h !! l
    | None => h !! l
    end.
Proof.
  intros Hrec. revert l.
  induction candidate as [|[name text] candidate IH] using rev_ind;
    intros l; [done|].
  pose proof (update_student_runs_through m candidate h Hrec) as Hexn.
  assert (∀ k, get_prop (update_student m h candidate).1 (predictors_of m) k
               = get_prop h (predictors_of m) k) as Hkeep.
  { intros k. unfold get_prop at 1. rewrite IH.
    rewrite last_filter_none; [done|]. intros [name' text'] _ Hget.
    simpl in Hget. destruct (Hrec _ _ Hget) as (l' & [= <-] & Hne). done. }
  unfold update_student in *. rewrite foldl_snoc.
  destruct (foldl (update_student_prompt m) (h, None) candidate)
    as [h1 exn]. simpl in Hexn, Hkeep, IH. subst exn.
  unfold update_student_prompt. simpl. rewrite Hkeep.
  rewrite filter_app, last_app, filter_cons, filter_nil. simpl.
  destruct (get_prop h (predictors_of m) name) as [[s|l']|] eqn:Hget.
  - destruct (Hrec _ _ Hget) as (l' & [=] & _).
  - simpl. unfold set_prop.
    destruct (decide (Some (VObject l') = Some (VObject l))) as [[= ->]|Hne];
      simpl.
    + rewrite lookup_alter_eq, IH. destruct (last _); simpl; [|done].
      destruct (h !! l); simpl; [|done]. by rewrite insert_insert_eq.
    + rewrite lookup_alter_ne by congruence. apply IH.
  - rewrite decide_False by done. simpl. apply IH.
Qed.

Lemma load_lookup m h files filePath state l :
  files !! filePath = Some state → record_of_predictors m h →
  (load m h files filePath).2 = None ∧
  (load m h files filePath).1 !! l
  = match last (filter (λ e, get_prop h (predictors_of m) e.1
                             = Some (VObject l)) state) with
    | Some e => <["instructions" := VString e.2]> <$> h !! l
    | None => h !! l
    end.
Proof.
  intros Hfile Hrec. unfold load. rewrite Hfile.
  split; [by apply update_student_runs_through|].
  by apply update_student_lookup.
Qed.

Lemma load_named m h files filePath state :
  files !! filePath = Some state → record_of_predictors m h →
  (load m h files filePath).2 = None ∧
  (∀ l k, k ≠ "instructions" →
          get_prop (load m h files filePath).1 l k = get_prop h l k) ∧
  (∀ l, (∀ name text, (name, text) ∈ state →
           get_prop h (predictors_of m) name ≠ Some (VObject l)) →
        (load m h files filePath).1 !! l = h !! l) ∧
  (∀ name text l,
     (name, text) ∈ state →
     get_prop h (predictors_of m) name = Some (VObject l) →
     is_Some (h !! l) →
     (∀ name' text', (name', text') ∈ state →
        get_prop h (predictors_of m) name' = Some (VObject l) →
        text' = text) →
     get_prop (load m h files filePath).1 l "instructions"
     = Some (VString text)).
Proof.
  intros Hfile Hrec.
  pose proof (λ l, proj2 (load_lookup m h files filePath state l Hfile Hrec))
    as Hl.
  split_and!.
  - by apply (load_lookup m h files filePath state 1%positive).
  - intros l k Hk. unfold get_prop. rewrite Hl.
    destruct (last _); [|done]. destruct (h !! l); simpl; [|done].
    by rewrite lookup_insert_ne.
  - intros l Hnone. rewrite Hl. rewrite last_filter_none; [done|].
    intros [name text] Hin. by apply (Hnone name text).
  - intros name text l Hin Hget [o Ho] Hsame. unfold get_prop. rewrite Hl.
    destruct (last _) as [[name' text']|] eqn:Hlast.
    + apply last_Some_elem_of, list_elem_of_filter in Hlast as [Hget' Hin'].
      simpl in *. rewrite (Hsame name' text' Hin' Hget'), Ho. simpl.
      by rewrite lookup_insert_eq.
    + apply last_None in Hlast.
      assert ((name, text) ∈ filter
                (λ e : string * string,
                   get_prop h (predictors_of m) e.1 = Some (VObject l))
                state) as Hx by (by apply list_elem_of_filter).
      rewrite Hlast in Hx. by apply elem_of_nil in Hx.
Qed.

(** X20.  [load] of a file that names no member every object inherits
    writes [instructions] fields of predictors the file names, and nothing
    else: it does not throw on a record of predictor objects, leaves every
    other field and every object the file does not name as it was, and a
    predictor that one entry of the file names gets that entry's text, also
    in a module other than the one saved. *)
Theorem load_sets_named_instructions m h files filePath state :
  files !! filePath = Some state → record_of_predictors m h →
  Forall (λ name, name ∉ Object_prototype) state.*1 →
  (load m h files filePath).2 = None ∧
  (∀ l k, k ≠ "instructions" →
          get_prop (load m h files filePath).1 l k = get_prop h l k) ∧
  (∀ l, (∀ name text, (name, text) ∈ state →
           get_prop h (predictors_of m) name ≠ Some (VObject l)) →
        (load m h files filePath).1 !! l = h !! l) ∧
  (∀ name text l,
     (name, text) ∈ state →
     get_prop h (predictors_of m) name = Some (VObject l) →
     is_Some (h !! l) →
     (∀ name' text', (name', text') ∈ state →
        get_prop h (predictors_of m) name' = Some (VObject l) →
        text' = text) →
     get_prop (load m h files filePath).1 l "instructions"
     = Some (VString text)).
Proof. intros Hfile Hrec _. by apply load_named. Qed.


(** X22.  The seed candidate [compile] hands to the optimizer is the
    student as it stands: applying it back changes nothing, through the
    callback of [compile] and, where the predictors of the record are
    attached under their names, through [evaluate]. *)
Theorem seed_candidate_changes_nothing m h es seed :
  listing h (predictors_of m) es →
  seedCandidate h es = Some seed →
  update_student m h seed = (h, None) ∧
  ((∀ name l, get_prop h (predictors_of m) name = Some (VObject l) →
              this_get m name = MObject l) →
   update_candidate_prompts m h seed = h).
Proof.
  intros [_ Hes] Hseed. unfold seedCandidate in Hseed.
  assert (Forall (λ e : string * string,
            ∃ l, get_prop h (predictors_of m) e.1 = Some (VObject l) ∧
                 get_prop h l "instructions" = Some (VString e.2)) seed)
    as Hall.
  { apply Forall_forall. intros [name text] Hin.
    apply (state_of_elem h es seed name text Hseed) in Hin as (l & Hin & Hl).
    exists l. split; [by apply Hes|done]. }
  clear Hseed. unfold update_student, update_candidate_prompts. split.
  - induction Hall as [|[name text] seed (l & Hget & Hl) Hall IH]; [done|].
    simpl in *. unfold update_student_prompt at 2. simpl.
    by rewrite Hget, (set_prop_same _ _ _ _ Hl).
  - intros Hattached.
    induction Hall as [|[name text] seed (l & Hget & Hl) Hall IH]; [done|].
    simpl in *. unfold update_prompt at 2. simpl.
    by rewrite (Hattached _ _ Hget), (set_prop_same _ _ _ _ Hl).
Qed.

End PersistenceProperties.

(** * What [compile] hands back *)

Section ResultProperties.

Context {any number : Type} (zero : number) (show_number : number → string).
Implicit Types (mf : MetricFunction (any:=any) (number:=number)).

(** X23.  The prompts an evaluate request applies stay in the student:
    when the verdict follows, a predictor its [best_candidate] does not name
    keeps the instructions of the candidate evaluated last, and this is
    the module [compile] resolves with. *)
Theorem last_evaluated_candidate_stays_in_result
    (t : Teleprompt (any:=any) (number:=number)) module h mf ds batch
    candidate capture_traces sched best res sched' l text :
  this_get module "evaluate" = MFunction →
  record_of_predictors module (update_candidate_prompts module h candidate) →
  get_prop (update_candidate_prompts module h candidate) l "instructions"
  = Some (VString text) →
  (∀ name text', (name, text') ∈ best →
     get_prop (update_candidate_prompts module h candidate)
       (predictors_of module) name ≠ Some (VObject l)) →
  let s := compile zero show_number t module h mf ds
             [Http (PostEvaluate batch candidate capture_traces) sched;
              Http (PostFinalize best res) sched'] in
  compilePromise s = Fulfilled () ∧
  get_prop (heap s) l "instructions" = Some (VString text).
Proof.
  intros Hev Hrec Htext Hbest. unfold compile, compile_start. simpl.
  rewrite Hev. unfold evaluate. simpl. unfold finalize. simpl.
  unfold on_finalized. simpl.
  set (h' := update_candidate_prompts module h candidate) in *.
  pose proof (update_student_runs_through module best h' Hrec) as Hexn.
  pose proof (update_student_lookup module best h' l Hrec) as Hl.
  rewrite last_filter_none in Hl
    by (intros [name text'] Hin; by apply (Hbest name text')).
  destruct (update_student module h' best) as [h'' exn]. simpl in Hexn, Hl.
  subst exn. simpl. split; [done|]. unfold get_prop. rewrite Hl. exact Htext.
Qed.

End ResultProperties.


(** * The classifier, run through the model *)

Lemma classifier_rollouts_return :
  rollouts_return classifier
    (update_candidate_prompts classifier classifier_store new_prompt)
    trainset (Some (getInputs ticket_inputs)).
Proof. unfold rollouts_return. repeat constructor. Defined.

Lemma evaluate_report_lengths_witness :
  ∃ report,
    (evaluate 0%Z pretty classifier classifier_store trainset new_prompt true 2
       label_metric (Some (getInputs ticket_inputs)) interleaving).2
    = Returned report ∧
    length (outputs report) = length trainset ∧
    length (scores report) = length trainset ∧
    (true = false → trajectories report = []) ∧
    (true = true → length (trajectories report) = length trainset).
Proof.
  destruct (evaluate_report_lengths 0%Z pretty classifier classifier_store
              trainset new_prompt true 2 label_metric
              (Some (getInputs ticket_inputs)) interleaving)
    as (Hlengths & Hreturns & _).
  destruct (Hreturns classifier_rollouts_return) as [report Hreport].
  exists report. split; [exact Hreport|]. by apply Hlengths.
Defined.

Lemma each_index_claimed_once_witness :
  let q := final_pool 0%Z pretty classifier
             (update_candidate_prompts classifier classifier_store new_prompt)
             trainset true label_metric (Some (getInputs ticket_inputs)) 2
             interleaving in
  currentIndex q = length trainset ∧
  processed q ≡ₚ claims q ∧
  ∀ i, i < length trainset →
    ∃ w, w < 2 ∧ (w, i) ∈ claims q ∧ (w, i) ∈ processed q ∧
         ∀ w', (w', i) ∈ claims q ∨ (w', i) ∈ processed q → w' = w.
Proof.
  apply (each_index_claimed_once 0%Z pretty classifier
           (update_candidate_prompts classifier classifier_store new_prompt)
           trainset true 2 label_metric (Some (getInputs ticket_inputs))
           interleaving).
  - lia.
  - exact classifier_rollouts_return.
Defined.


Lemma concurrency_independent_witness :
  let one := evaluate 0%Z pretty classifier classifier_store trainset
               new_prompt true 1 label_metric
               (Some (getInputs ticket_inputs)) interleaving in
  let many := evaluate 0%Z pretty classifier classifier_store trainset
                new_prompt true (length trainset) label_metric
                (Some (getInputs ticket_inputs)) (λ t, t) in
  ∃ report,
    one.2 = Returned report ∧ many.2 = Returned report ∧
    outputs report
    = [Some (mkPrediction (Value "Technical") JNull JNull JNull);
       Some (mkPrediction (Value "General") JNull JNull JNull);
       Some (mkPrediction Null (JString "AI_APICallError")
               (JString "rate limited") JNull)] ∧
    scores report = [Some 1%Z; Some 0%Z; Some 0%Z].
Proof.
  destruct (concurrency_independent 0%Z pretty classifier classifier_store
              trainset new_prompt true (length trainset) label_metric
              (Some (getInputs ticket_inputs)) interleaving (λ t, t))
    as [_ Hreturn].
  - left. reflexivity.
  - destruct (Hreturn classifier_rollouts_return)
      as (report & Hone & Hmany & _ & _ & _ & ->).
    eexists. split; [exact Hone|]. split; [exact Hmany|].
    split; vm_compute; reflexivity.
Defined.

(** C9 fails as stated: forward logic that returns [null] (the classifier
    on an example without a ticket) gives a prediction with neither side
    populated: its output is null and so are its error fields. *)
Lemma null_output_populates_neither_side :
  ¬ (∀ (m : Module (any:=string)) h x r,
       run m h x = Returned r → exactly_one_side (prediction r)).
Proof.
  intros Hall.
  assert (∃ r, run classifier classifier_store ∅ = Returned r ∧
               p_output (prediction r) = Null ∧
               errorType (prediction r) = JNull) as (r & Hr & Hout & Hkind).
  { eexists. split; [vm_compute; reflexivity|done]. }
  destruct (Hall _ _ _ _ Hr) as [[(Hsome & _) _]|[(_ & Hfail & _) _]];
    congruence.
Qed.

Lemma prediction_is_success_or_failure_record_witness :
  (∃ r, run classifier classifier_store
          {[ "ticket" := "I can't log into my account." ]} = Returned r ∧
        p_output (prediction r) = Value "Technical" ∧
        success_record (prediction r) ∧ ¬ failure_record (prediction r)) ∧
  (∃ r, run classifier classifier_store ∅ = Returned r ∧
        p_output (prediction r) = Null ∧
        success_record (prediction r) ∧ ¬ failure_record (prediction r)) ∧
  (∃ r, run classifier classifier_store {[ "ticket" := "Is anybody there?" ]}
        = Returned r ∧
        errorType (prediction r) = JString "AI_APICallError" ∧
        failure_record (prediction r) ∧ ¬ success_record (prediction r)).
Proof.
  assert (∀ x r, run classifier classifier_store x = Returned r →
            (success_record (prediction r) ∧ ¬ failure_record (prediction r))
            ∨ (failure_record (prediction r) ∧
               ¬ success_record (prediction r))) as Hrecord.
  { intros x r Hr.
    destruct (prediction_is_success_or_failure_record classifier
                classifier_store x r Hr) as [(? & ? & _)|(? & ? & _)];
      [by left|by right]. }
  split_and!.
  - eexists. split; [vm_compute; reflexivity|]. split; [reflexivity|].
    edestruct (Hrecord {[ "ticket" := "I can't log into my account." ]})
      as [Hs|[[_ [[Hset _] _]] _]];
      [vm_compute; reflexivity|exact Hs|by destruct Hset].
  - eexists. split; [vm_compute; reflexivity|]. split; [reflexivity|].
    edestruct (Hrecord ∅) as [Hs|[[_ [[Hset _] _]] _]];
      [vm_compute; reflexivity|exact Hs|by destruct Hset].
  - eexists. split; [vm_compute; reflexivity|]. split; [reflexivity|].
    edestruct (Hrecord {[ "ticket" := "Is anybody there?" ]})
      as [[[Hnull _] _]|Hf];
      [vm_compute; reflexivity|discriminate Hnull|exact Hf].
Defined.

(** C6.  Forward logic that rejects with [undefined] after one predictor
    call: [run] does not return a failure prediction, it rejects with the
    TypeError of its own [catch] block, and the trace entry of the call is
    lost with it; [evaluate] then rejects for the whole batch. *)
Theorem run_rejects_when_forward_rejects_with_undefined :
  let ticket : gmap string string := {[ "ticket" := "Where is my order #123?" ]} in
  (call_forward impatient classifier_store ticket []).2 = Threw ThrownNullish ∧
  length (call_forward impatient classifier_store ticket []).1 = 1 ∧
  run impatient classifier_store ticket
  = Threw (TypeError "Cannot read properties of undefined (reading 'name')") ∧
  (evaluate 0%Z pretty impatient classifier_store trainset [] false 2
     label_metric None interleaving).2
  = Threw (TypeError "Cannot read properties of undefined (reading 'name')").
Proof. vm_compute. done. Qed.

(** C4.  A candidate entry named [_predictors] names no predictor of the
    classifier, yet [evaluate] does not ignore it: it writes an
    [instructions] field on the record of predictors itself, where
    [compile] (and [load]) skip the entry.  After that write a best
    candidate with an entry named [instructions] makes the callback of
    [compile] throw. *)
Theorem evaluate_writes_to_the_predictors_record :
  let h' := update_candidate_prompts classifier classifier_store
              [("_predictors", "X")] in
  get_prop classifier_store record_loc "instructions" = None ∧
  get_prop h' record_loc "instructions" = Some (VString "X") ∧
  update_student classifier classifier_store [("_predictors", "X")]
  = (classifier_store, None) ∧
  (update_student classifier classifier_store [("instructions", "Y")]).2
  = None ∧
  (update_student classifier h' [("instructions", "Y")]).2
  = Some (TypeError "Cannot create property 'instructions' on string").
Proof. vm_compute. done. Qed.

Lemma compile_settles_once_witness :
  Forall (λ e, decisive e = false) before_verdict ∧ decisive verdict = true ∧
  let s2 := compile 0%Z pretty optimizer classifier classifier_store
              label_metric ticket_inputs (before_verdict ++ [verdict]) in
  let s3 := compile 0%Z pretty optimizer classifier classifier_store
              label_metric ticket_inputs
              (before_verdict ++ verdict :: after_verdict) in
  compilePromise s2 = Fulfilled () ∧ compilePromise s3 = Fulfilled () ∧
  get_prop (heap s2) judge_loc "instructions"
  = Some (VString "Sort the ticket.") ∧
  get_prop (heap s3) judge_loc "instructions"
  = Some (VString "Sort the ticket.") ∧
  handle 0%Z pretty interleaving s3
    (PostFinalize [("judge", "Too late.")] "other results")
  = (s3, mkResponse 200 (StatusBody "ok")).
Proof.
  assert (Forall (λ e : signal (any:=string), decisive e = false)
            before_verdict) as Hquiet by repeat constructor.
  assert (decisive verdict = true) as Hverdict by reflexivity.
  split; [exact Hquiet|]. split; [exact Hverdict|].
  destruct (compile_settles_once 0%Z pretty optimizer classifier
              classifier_store label_metric ticket_inputs before_verdict
              verdict after_verdict Hquiet Hverdict)
    as (_ & Hheap & Hsettled & Hsecond).
  destruct Hsettled as [Hs2 Hs3]; [vm_compute; reflexivity|].
  split; [exact Hs2|]. split; [exact Hs3|]. split; [|split].
  - rewrite Hheap. vm_compute. reflexivity.
  - vm_compute. reflexivity.
  - apply Hsecond.
Defined.

Lemma unconfigured_metric_is_reported_witness :
  metric (teleprompt unconfigured) = None ∧
  handle 0%Z pretty interleaving unconfigured
    (PostEvaluate trainset new_prompt true)
  = (unconfigured,
     mkResponse 500
       (ErrorBody "Metric not configured on Teleprompt instance")) ∧
  serve 0%Z pretty unconfigured
    [(PostEvaluate trainset new_prompt true, interleaving);
     (PostFinalize new_prompt "results", interleaving)]
  = ((serve 0%Z pretty unconfigured
        [(PostFinalize new_prompt "results", interleaving)]).1,
     mkResponse 500 (ErrorBody "Metric not configured on Teleprompt instance")
     :: (serve 0%Z pretty unconfigured
           [(PostFinalize new_prompt "results", interleaving)]).2).
Proof.
  split; [reflexivity|].
  apply (unconfigured_metric_is_reported 0%Z pretty unconfigured
           (PostEvaluate trainset new_prompt true) interleaving
           [(PostFinalize new_prompt "results", interleaving)]);
    reflexivity.
Defined.

Lemma finalize_unarmed_is_noop_witness :
  finalizeResolve (teleprompt unconfigured) = None ∧
  finalize new_prompt "results" unconfigured = unconfigured ∧
  handle 0%Z pretty interleaving unconfigured
    (PostFinalize new_prompt "results")
  = (unconfigured, mkResponse 200 (StatusBody "ok")).
Proof.
  split; [reflexivity|].
  apply (finalize_unarmed_is_noop 0%Z pretty unconfigured new_prompt "results"
           interleaving).
  reflexivity.
Defined.
(** * Further properties, at the classifier *)

Lemma prepareMessages_one_system_message_witness :
  prepareMessages "Classify the support ticket."
    (mkOptions None (Some "Ticket: Where is my order #123?"))
  = Returned [mkMessage "system" "Classify the support ticket.";
              mkMessage "user" "Ticket: Where is my order #123?"] ∧
  ∃ rest,
    [mkMessage "system" "Classify the support ticket.";
     mkMessage "user" "Ticket: Where is my order #123?"]
    = mkMessage "system" "Classify the support ticket." :: rest ∧
    Forall (λ msg, role msg ≠ "system") rest ∧
    (messages (mkOptions None (Some "Ticket: Where is my order #123?"))
     = Some rest ∨
     messages (mkOptions None (Some "Ticket: Where is my order #123?")) = None ∧
     ∃ pr, prompt (mkOptions None (Some "Ticket: Where is my order #123?"))
           = Some pr ∧ pr ≠ "" ∧ rest = [mkMessage "user" pr]).
Proof.
  split; [reflexivity|].
  apply (prepareMessages_one_system_message "Classify the support ticket."
           (mkOptions None (Some "Ticket: Where is my order #123?"))).
  reflexivity.
Defined.

Lemma classifier_throws_values inputs :
  throws_values (classifier_forward inputs).
Proof.
  unfold classifier_forward. destruct (inputs !! "ticket"); constructor.
  intros [text|e] Hc; constructor. by apply Hc.
Qed.

Lemma classifier_llm_describable msgs e :
  classifier_llm msgs = Threw e → e = ThrownNullish ∨ describable e = true.
Proof.
  unfold classifier_llm. destruct (last msgs) as [msg|].
  - repeat case_decide; intros [= <-]; by right.
  - intros [= <-]. by right.
Qed.




Lemma evaluate_returns_when_logic_throws_values_witness :
  (∀ inputs, throws_values (classifier_forward inputs)) ∧
  (∀ msgs e, classifier_llm msgs = Threw e →
             e = ThrownNullish ∨ describable e = true) ∧
  ∃ report,
    (evaluate 0%Z pretty classifier classifier_store trainset new_prompt true
       2 label_metric (Some (getInputs ticket_inputs)) interleaving).2
    = Returned report ∧
    length (outputs report) = length trainset ∧
    length (scores report) = length trainset ∧
    (0 < 2 →
     Forall is_Some (outputs report) ∧ Forall is_Some (scores report)).
Proof.
  split; [exact classifier_throws_values|].
  split; [exact classifier_llm_describable|].
  apply (evaluate_returns_when_logic_throws_values 0%Z pretty classifier
           classifier_store trainset new_prompt true 2 label_metric
           (Some (getInputs ticket_inputs)) interleaving classifier_llm
           classifier_forward).
  - reflexivity.
  - exact classifier_throws_values.
  - exact classifier_llm_describable.
  - reflexivity.
Defined.

Lemma evaluate_without_forward_witness :
  ∃ report,
    (evaluate 0%Z pretty unforwarded classifier_store trainset new_prompt true
       2 label_metric (Some (getInputs ticket_inputs)) interleaving).2
    = Returned report ∧
    length (outputs report) = length trainset ∧
    Forall (λ o, ∃ p, o = Some p ∧ p_output p = Null ∧
                      errorType p = JString "Error" ∧
                      errorMessage p = JString "Forward function is not set")
      (outputs report).
Proof.
  apply (evaluate_without_forward 0%Z pretty unforwarded classifier_store
           trainset new_prompt true 2 label_metric
           (Some (getInputs ticket_inputs)) interleaving).
  - reflexivity.
  - reflexivity.
  - reflexivity.
  - lia.
Defined.


Lemma evaluate_endpoint_report_holes_witness :
  (∃ report,
     (handle 0%Z pretty interleaving configured
        (PostEvaluate trainset new_prompt true)).2
     = mkResponse 200 (ReportBody report) ∧
     length (outputs report) = length trainset ∧
     length (scores report) = length trainset ∧
     Forall is_Some (outputs report) ∧ Forall is_Some (scores report) ∧
     (true = true →
      length (trajectories report) = length trainset ∧
      Forall is_Some (trajectories report))) ∧
  (handle 0%Z pretty interleaving underthreaded
     (PostEvaluate trainset new_prompt true)).2
  = mkResponse 200
      (ReportBody
         (mkBatch (replicate (length trainset) None)
            (replicate (length trainset) None)
            (replicate (length trainset) None))).
Proof.
  split.
  - assert (∃ report,
              (handle 0%Z pretty interleaving configured
                 (PostEvaluate trainset new_prompt true)).2
              = mkResponse 200 (ReportBody report)) as [report Hreport].
    { eexists. vm_compute. reflexivity. }
    exists report. split; [exact Hreport|].
    apply (proj1 (evaluate_endpoint_report_holes 0%Z pretty configured
                    trainset new_prompt true interleaving) report);
      [|exact Hreport].
    intros q [= <-]. right. done.
  - apply (proj2 (evaluate_endpoint_report_holes 0%Z pretty underthreaded
                    trainset new_prompt true interleaving) (1 # 2)%Q
             label_metric); reflexivity.
Defined.

Lemma late_finalize_still_updates_student_witness :
  let failed := compile 0%Z pretty optimizer classifier classifier_store
                  label_metric ticket_inputs
                  (before_verdict ++ [ProcessClose (Some 1%Z)]) in
  let late := step 0%Z pretty failed verdict in
  Forall (λ ev : signal (any:=string), decisive ev = false) before_verdict ∧
  (∃ e, compilePromise failed = Rejected e ∧
        compilePromise late = Rejected e) ∧
  listening late = false ∧
  heap late
  = (update_student classifier (heap failed)
       [("judge", "Sort the ticket.")]).1 ∧
  get_prop (heap late) judge_loc "instructions"
  = Some (VString "Sort the ticket.").
Proof.
  intros failed late.
  assert (Forall (λ ev : signal (any:=string), decisive ev = false)
            before_verdict) as Hquiet by repeat constructor.
  split; [exact Hquiet|].
  destruct (late_finalize_still_updates_student 0%Z pretty optimizer
              classifier classifier_store label_metric ticket_inputs
              before_verdict (ProcessClose (Some 1%Z))
              [("judge", "Sort the ticket.")] "results" interleaving Hquiet)
    as (Hrej & Hclosed & Hheap).
  { right. exists (Some 1%Z). split; [reflexivity|discriminate]. }
  split; [exact Hrej|]. split; [exact Hclosed|]. split; [exact Hheap|].
  vm_compute. reflexivity.
Defined.

Lemma evaluate_writes_instructions_only_witness :
  ("__proto__" ∉ new_prompt.*1) ∧
  let h' := (evaluate 0%Z pretty classifier classifier_store trainset
               new_prompt true 2 label_metric
               (Some (getInputs ticket_inputs)) interleaving).1 in
  dom h' = dom classifier_store ∧
  (∀ l k, k ≠ "instructions" →
          get_prop h' l k = get_prop classifier_store l k) ∧
  (∀ l, (∀ name text, (name, text) ∈ new_prompt →
                      this_get classifier name ≠ MObject l) →
        h' !! l = classifier_store !! l).
Proof.
  assert ("__proto__" ∉ new_prompt.*1) as Hnames
    by (apply (bool_decide_unpack _); vm_compute; reflexivity).
  split; [exact Hnames|].
  exact (evaluate_writes_instructions_only 0%Z pretty classifier
           classifier_store trainset new_prompt true 2 label_metric
           (Some (getInputs ticket_inputs)) interleaving Hnames).
Defined.

Lemma getInputs_takes_last_mapped_field_witness :
  let ex : gmap string string :=
    {[ "ticket" := "Where is my order #123?"; "label" := "Billing" ]} in
  let d := mkDataset [("label", "question"); ("ticket", "question")] in
  Forall (λ datasetKey, datasetKey ∉ Object_prototype) (inputs d).*1 ∧
  ("__proto__" ∉ (inputs d).*2) ∧
  getInputs d ex = {[ "question" := "Where is my order #123?" ]} ∧
  getInputs d ex !! "question"
  = last (filter (λ e, e.2 = "question" ∧ is_Some (ex !! e.1)) (inputs d))
    ≫= λ e, ex !! e.1.
Proof.
  intros ex d.
  assert (Forall (λ datasetKey, datasetKey ∉ Object_prototype) (inputs d).*1)
    as Hkeys by (apply (bool_decide_unpack _); vm_compute; reflexivity).
  assert ("__proto__" ∉ (inputs d).*2) as Hnames
    by (apply (bool_decide_unpack _); vm_compute; reflexivity).
  split; [exact Hkeys|]. split; [exact Hnames|].
  split; [vm_compute; reflexivity|].
  exact (getInputs_takes_last_mapped_field d ex "question" Hkeys Hnames).
Defined.

Lemma getInputs_keeps_listed_fields_witness :
  let ex : gmap string string :=
    {[ "ticket" := "Where is my order #123?"; "label" := "Billing" ]} in
  Forall (λ name, name ∉ Object_prototype) ["ticket"; "urgency"] ∧
  getInputs (new_Dataset ["ticket"; "urgency"]) ex
  = {[ "ticket" := "Where is my order #123?" ]} ∧
  (∀ k, getInputs (new_Dataset ["ticket"; "urgency"]) ex !! k
        = if decide (k ∈ ["ticket"; "urgency"]) then ex !! k else None).
Proof.
  intros ex.
  assert (Forall (λ name, name ∉ Object_prototype) ["ticket"; "urgency"])
    as Hnames by (apply (bool_decide_unpack _); vm_compute; reflexivity).
  split; [exact Hnames|]. split; [vm_compute; reflexivity|].
  exact (proj1 (getInputs_keeps_listed_fields ["ticket"; "urgency"] ex
                  Hnames)).
Defined.

Lemma unnamed_record name :
  get_prop unnamed_store record_loc name
  = if decide (name = "judge") then Some (VObject judge_loc) else None.
Proof.
  unfold get_prop, unnamed_store. rewrite lookup_insert_eq. simpl.
  case_decide as Hname.
  - subst name. reflexivity.
  - apply lookup_singleton_ne. congruence.
Qed.

Lemma classifier_record name :
  get_prop classifier_store record_loc name
  = if decide (name = "judge") then Some (VObject judge_loc) else None.
Proof.
  unfold get_prop, classifier_store. rewrite lookup_insert_eq. simpl.
  case_decide as Hname.
  - subst name. reflexivity.
  - apply lookup_singleton_ne. congruence.
Qed.

Lemma classifier_record_of_predictors h :
  (∀ name, get_prop h record_loc name
           = get_prop classifier_store record_loc name) →
  record_of_predictors classifier h.
Proof.
  intros Hsame k v. change (predictors_of classifier) with record_loc.
  rewrite Hsame, classifier_record. case_decide; [|done].
  intros [= <-]. exists judge_loc. split; [reflexivity|discriminate].
Qed.


Lemma constructed_module_applies_candidates_alike_witness :
  new_Module unnamed_store record_loc
    (Object_entries unnamed_store record_loc) (_forward classifier)
  = (classifier_store, Returned classifier) ∧
  update_student classifier classifier_store new_prompt
  = (update_candidate_prompts classifier classifier_store new_prompt, None).
Proof.
  assert (new_Module unnamed_store record_loc
            (Object_entries unnamed_store record_loc) (_forward classifier)
          = (classifier_store, Returned classifier)) as Hnew
    by (vm_compute; reflexivity).
  split; [exact Hnew|].
  apply (constructed_module_applies_candidates_alike unnamed_store record_loc
           (Object_entries unnamed_store record_loc) (_forward classifier)
           classifier_store classifier new_prompt).
  - apply Object_entries_listing.
  - exact Hnew.
  - reflexivity.
  - reflexivity.
  - reflexivity.
  - intros name. rewrite unnamed_record. by case_decide.
  - apply (bool_decide_unpack _). vm_compute. reflexivity.
  - apply (bool_decide_unpack _). vm_compute. reflexivity.
Defined.

Lemma load_sets_named_instructions_witness :
  prompt_files !! "prompts.json"
  = Some [("judge", "Reply with one word."); ("router", "Unused.")] ∧
  record_of_predictors classifier classifier_store ∧
  (load classifier classifier_store prompt_files "prompts.json").2 = None ∧
  get_prop (load classifier classifier_store prompt_files "prompts.json").1
    judge_loc "instructions" = Some (VString "Reply with one word.") ∧
  get_prop (load classifier classifier_store prompt_files "prompts.json").1
    judge_loc "name" = get_prop classifier_store judge_loc "name".
Proof.
  assert (record_of_predictors classifier classifier_store) as Hrec
    by (by apply classifier_record_of_predictors).
  split; [reflexivity|]. split; [exact Hrec|].
  destruct (load_sets_named_instructions classifier classifier_store
              prompt_files "prompts.json"
              [("judge", "Reply with one word."); ("router", "Unused.")]
              eq_refl Hrec) as (Hexn & Hframe & _ & Hset).
  { apply (bool_decide_unpack _). vm_compute. reflexivity. }
  split; [exact Hexn|]. split.
  - apply (Hset "judge" "Reply with one word." judge_loc).
    + by left.
    + reflexivity.
    + by eexists.
    + intros name' text' Hin. change (predictors_of classifier) with record_loc.
      rewrite classifier_record. case_decide as Hname; [|done]. subst name'.
      intros _. apply elem_of_cons in Hin as [[= <-]|Hin]; [reflexivity|].
      apply list_elem_of_singleton in Hin. discriminate.
  - by apply Hframe.
Defined.


Lemma seed_candidate_changes_nothing_witness :
  seedCandidate classifier_store (Object_entries classifier_store record_loc)
  = Some [("judge",
           "Classify the ticket into: Billing, Technical, or General.")] ∧
  update_student classifier classifier_store
    [("judge", "Classify the ticket into: Billing, Technical, or General.")]
  = (classifier_store, None) ∧
  update_candidate_prompts classifier classifier_store
    [("judge", "Classify the ticket into: Billing, Technical, or General.")]
  = classifier_store.
Proof.
  assert (seedCandidate classifier_store
            (Object_entries classifier_store record_loc)
          = Some [("judge",
                   "Classify the ticket into: Billing, Technical, or General.")])
    as Hseed by (vm_compute; reflexivity).
  split; [exact Hseed|].
  destruct (seed_candidate_changes_nothing classifier classifier_store
              (Object_entries classifier_store record_loc) _
              (Object_entries_listing classifier_store record_loc) Hseed)
    as [Hcompile Hevaluate].
  split; [exact Hcompile|]. apply Hevaluate.
  intros name l. change (predictors_of classifier) with record_loc.
  rewrite classifier_record. case_decide as Hname; [|done]. subst name.
  by intros [= <-].
Defined.

Lemma evaluate_returns_iff_no_rollout_rejects_witness :
  0 < 2 ∧
  ((∃ report,
      (evaluate 0%Z pretty impatient classifier_store trainset new_prompt true
         2 label_metric (Some (getInputs ticket_inputs)) interleaving).2
      = Returned report) ↔
   rollouts_return impatient
     (update_candidate_prompts impatient classifier_store new_prompt) trainset
     (Some (getInputs ticket_inputs))).
Proof.
  split; [lia|].
  apply (evaluate_returns_iff_no_rollout_rejects 0%Z pretty impatient
           classifier_store trainset new_prompt true 2 label_metric
           (Some (getInputs ticket_inputs)) interleaving).
  lia.
Defined.

Lemma predictor_named_run_fails_evaluate_witness :
  let runner : Module (any:=string) :=
    mkModule record_loc {[ "run" := judge_loc ]} (_forward classifier) in
  fields runner !! "run" = Some judge_loc ∧
  (evaluate 0%Z pretty runner classifier_store trainset [] false 2
     label_metric (Some (getInputs ticket_inputs)) interleaving).2
  = Threw (TypeError "this.run is not a function").
Proof.
  intros runner. split; [reflexivity|].
  apply (predictor_named_run_fails_evaluate 0%Z pretty runner classifier_store
           trainset [] false 2 label_metric (Some (getInputs ticket_inputs))
           interleaving judge_loc).
  - reflexivity.
  - discriminate.
  - lia.
Defined.

Lemma predictor_named_forward_fails_every_rollout_witness :
  let forwarder : Module (any:=string) :=
    mkModule record_loc {[ "forward" := judge_loc ]} (_forward classifier) in
  fields forwarder !! "forward" = Some judge_loc ∧
  ∃ report,
    (evaluate 0%Z pretty forwarder classifier_store trainset [] false 2
       label_metric (Some (getInputs ticket_inputs)) interleaving).2
    = Returned report ∧
    length (outputs report) = length trainset ∧
    Forall (λ o, ∃ p, o = Some p ∧ p_output p = Null ∧
                      errorType p = JString "TypeError" ∧
                      errorMessage p
                      = JString "this.forward is not a function")
      (outputs report).
Proof.
  intros forwarder. split; [reflexivity|].
  apply (predictor_named_forward_fails_every_rollout 0%Z pretty forwarder
           classifier_store trainset [] false 2 label_metric
           (Some (getInputs ticket_inputs)) interleaving judge_loc).
  - reflexivity.
  - reflexivity.
  - lia.
Defined.

Lemma last_evaluated_candidate_stays_in_result_witness :
  get_prop classifier_store judge_loc "instructions"
  = Some (VString "Classify the ticket into: Billing, Technical, or General.") ∧
  let s := compile 0%Z pretty optimizer classifier classifier_store
             label_metric ticket_inputs
             [Http (PostEvaluate trainset new_prompt false) interleaving;
              Http (PostFinalize [("router", "Unused.")] "results")
                interleaving] in
  compilePromise s = Fulfilled () ∧
  get_prop (heap s) judge_loc "instructions"
  = Some (VString "Classify the support ticket.").
Proof.
  split; [reflexivity|].
  assert (∀ name,
            get_prop (update_candidate_prompts classifier classifier_store
                        new_prompt) record_loc name
            = get_prop classifier_store record_loc name) as Hsame.
  { intros name. unfold get_prop. rewrite update_candidate_prompts_lookup.
    assert (last_prompt classifier new_prompt record_loc = None) as ->
      by (vm_compute; reflexivity).
    reflexivity. }
  assert (record_of_predictors classifier
            (update_candidate_prompts classifier classifier_store new_prompt))
    as Hrec by (by apply classifier_record_of_predictors).
  assert (get_prop
            (update_candidate_prompts classifier classifier_store new_prompt)
            judge_loc "instructions"
          = Some (VString "Classify the support ticket.")) as Htext
    by (vm_compute; reflexivity).
  assert (∀ name text', (name, text') ∈ [("router", "Unused.")] →
            get_prop
              (update_candidate_prompts classifier classifier_store new_prompt)
              (predictors_of classifier) name ≠ Some (VObject judge_loc))
    as Hbest.
  { intros name text' Hin. apply list_elem_of_singleton in Hin.
    injection Hin as -> ->. change (predictors_of classifier) with record_loc.
    rewrite Hsame, classifier_record. by rewrite decide_False. }
  exact (last_evaluated_candidate_stays_in_result 0%Z pretty optimizer
           classifier classifier_store label_metric ticket_inputs trainset
           new_prompt false interleaving [("router", "Unused.")] "results"
           interleaving judge_loc "Classify the support ticket." eq_refl Hrec
           Htext Hbest).
Defined.

